(** * People's Bill platform (frontend): a shallow embedding and its properties

    The development follows the TypeScript sources of the frontend:
    - [lib/utils.ts]         : [Utils.truncateText], [Text], [Throttle],
      [Debounce], [Regex]
    - [app/submit/page.tsx]  : [Submit.GHANA_REGIONS],
      [Submit.submissionSchema], and the form as the browser submits it
      ([Form.submit])
    - [lib/api.ts]           : [Api.submitVote], the interceptors, [Auth]
    - [app/bill/page.tsx]    : [Bill.handleVote] (one call, start to
      end), [Visit] (calls suspended at their [await], replies in any
      order), [Bill.averageApproval] and [Double.averageApproval]
    - [hooks/index.ts]       : [Hooks.useVote_mutationFn]
    - the toast store ([useToast], [Toaster]) : [Toast.toast],
      [Toast.dismiss] and the timers of [setTimeout]

    Conventions.  A JavaScript string is a Rocq [string]; one character
    stands for one UTF-16 code unit, so [String.length] is the [.length]
    of the source.  An integral JavaScript number is a [Z].  A number
    that may be fractional (the approval rate) is a rational [Q] with
    exact arithmetic where only its range and the shape of the update
    matter, and a binary64 float ([Double]) where the rounding of the
    arithmetic decides what is shown. *)

From Stdlib Require Import ZArith QArith Qround Qminmax Lia Lqa Ascii String.
From Stdlib Require Floats.
From stdpp Require Import base decidable option list gmap strings pretty sorting.

#[local] Open Scope Z_scope.

(** ** JavaScript string primitives *)

Module JS.

(** [s.slice(0, n)] keeps the first [n] code units (all of [s] when it
    is shorter). *)
Fixpoint prefix (n : nat) (s : string) : string :=
  match n, s with
  | O, _ => EmptyString
  | S _, EmptyString => EmptyString
  | S n', String c s' => String c (prefix n' s')
  end.

Fixpoint drop (n : nat) (s : string) : string :=
  match n, s with
  | O, _ => s
  | S _, EmptyString => EmptyString
  | S n', String _ s' => drop n' s'
  end.

Definition len (s : string) : Z := Z.of_nat (String.length s).

(** Relative index of [String.prototype.slice]: a negative index counts
    from the end, and the result is clamped to [0 .. len]. *)
Definition rel_index (l i : Z) : Z :=
  if i <? 0 then Z.max (l + i) 0 else Z.min i l.

(** [s.slice(start, end)] for integral arguments. *)
Definition slice (s : string) (start end_ : Z) : string :=
  let from := rel_index (len s) start in
  let to := rel_index (len s) end_ in
  if to <=? from then EmptyString
  else prefix (Z.to_nat (to - from)) (drop (Z.to_nat from) s).

End JS.

(** ** lib/utils.ts *)

Module Utils.

Definition default_maxLength : Z := 100.

(** [truncateText(text, maxLength = 100)] *)
Definition truncateText (text : string) (maxLength : option Z) : string :=
  let maxLength := default default_maxLength maxLength in
  if JS.len text <=? maxLength then text
  else JS.slice text 0 maxLength +:+ "...".

End Utils.

(** ** app/submit/page.tsx *)

Module Submit.

(** Ghana's 16 regions *)
Definition GHANA_REGIONS : list string :=
  [ "Greater Accra"; "Ashanti"; "Western"; "Eastern"; "Central";
    "Volta"; "Oti"; "Northern"; "North East"; "Savannah";
    "Upper East"; "Upper West"; "Bono"; "Bono East"; "Ahafo"; "Western North" ].

(** *** The part of zod the schema uses

    A [z.string()] with [.min]/[.max] checks runs every check on the
    input and adds one issue for each check that fails; the checks
    compare the [.length] of the input with the bound. *)

Inductive IssueCode := too_small | too_big | custom.

Record ZodIssue := mkIssue {
  code : IssueCode;
  path : string;
  message : string
}.

Inductive StringCheck :=
| min (value : Z) (message : string)
| max (value : Z) (message : string).

Definition run_check (path : string) (input : string) (c : StringCheck)
  : list ZodIssue :=
  match c with
  | min value message =>
      if JS.len input <? value then [mkIssue too_small path message] else []
  | max value message =>
      if value <? JS.len input then [mkIssue too_big path message] else []
  end.

Definition parse_string (path : string) (checks : list StringCheck)
  (input : string) : list ZodIssue :=
  flat_map (run_check path input) checks.

(** [z.boolean().refine(pred, {message})] *)
Definition parse_refine (path : string) (pred : bool -> bool)
  (message : string) (input : bool) : list ZodIssue :=
  if pred input then [] else [mkIssue custom path message].

(** *** [parseInt(string)] with no radix argument

    Leading white space is skipped, one sign is read, a [0x]/[0X] prefix
    selects radix 16, and the longest prefix of digits is converted; the
    rest of the string is ignored.  [NaN] when there is no digit. *)

Inductive number := NaN | Int (z : Z).

Definition char_code (c : ascii) : Z := Z.of_N (Ascii.N_of_ascii c).

Definition is_white_space (c : ascii) : bool :=
  let n := char_code c in
  ((9 <=? n) && (n <=? 13)) || (n =? 32) || (n =? 160).

Fixpoint trim_start (s : string) : string :=
  match s with
  | String c s' => if is_white_space c then trim_start s' else s
  | EmptyString => s
  end.

Definition digit_value (c : ascii) : option Z :=
  let n := char_code c in
  if (48 <=? n) && (n <=? 57) then Some (n - 48)
  else if (97 <=? n) && (n <=? 122) then Some (n - 87)
  else if (65 <=? n) && (n <=? 90) then Some (n - 55)
  else None.

(** Value of the longest prefix of radix-[R] digits; [acc] is [None]
    until a digit has been read. *)
Fixpoint parse_digits (R : Z) (s : string) (acc : option Z) : option Z :=
  match s with
  | String c s' =>
      match digit_value c with
      | Some d =>
          if d <? R then parse_digits R s' (Some (default 0 acc * R + d))
          else acc
      | None => acc
      end
  | EmptyString => acc
  end.

Definition strip_sign (s : string) : Z * string :=
  match s with
  | String "-" s' => (-1, s')
  | String "+" s' => (1, s')
  | _ => (1, s)
  end.

Definition strip_prefix (s : string) : Z * string :=
  match s with
  | String "0" (String "x" s') => (16, s')
  | String "0" (String "X" s') => (16, s')
  | _ => (10, s)
  end.

Definition parseInt (s : string) : number :=
  let '(sign, s1) := strip_sign (trim_start s) in
  let '(R, s2) := strip_prefix s1 in
  match parse_digits R s2 None with
  | Some n => Int (sign * n)
  | None => NaN
  end.

(** *** The form and its schema *)

(** What react-hook-form hands to the resolver: the raw field values. *)
Record FormValues := mkFormValues {
  raw_content : string;
  raw_region : string;
  raw_age : option string;
  raw_occupation : option string;
  raw_agree_terms : bool
}.

(** [type SubmissionForm = z.infer<typeof submissionSchema>] *)
Record SubmissionForm := mkSubmissionForm {
  content : string;
  region : string;
  age : option number;
  occupation : option string;
  agree_terms : bool
}.

Inductive SafeParse :=
| success (data : SubmissionForm)
| failure (issues : list ZodIssue).

(** [val => val ? parseInt(val) : undefined] after [.optional()]: an
    absent or empty string is falsy. *)
Definition age_transform (val : option string) : option number :=
  match val with
  | Some (String _ _ as v) => Some (parseInt v)
  | _ => None
  end.

Definition content_checks : list StringCheck :=
  [ min 10 "Your submission must be at least 10 characters";
    max 5000 "Your submission must be less than 5000 characters" ].

Definition region_checks : list StringCheck :=
  [ min 1 "Please select your region" ].

Definition schema_issues (v : FormValues) : list ZodIssue :=
  parse_string "content" content_checks (raw_content v)
  ++ parse_string "region" region_checks (raw_region v)
  ++ parse_refine "agree_terms" (fun val => Bool.eqb val true)
       "You must agree to the terms" (raw_agree_terms v).

Definition submissionSchema (v : FormValues) : SafeParse :=
  match schema_issues v with
  | [] => success
            {| content := raw_content v;
               region := raw_region v;
               age := age_transform (raw_age v);
               occupation := raw_occupation v;
               agree_terms := raw_agree_terms v |}
  | issues => failure issues
  end.

(** The two issues the checks on [content] can raise. *)
Definition too_short : ZodIssue :=
  mkIssue too_small "content" "Your submission must be at least 10 characters".

Definition too_long : ZodIssue :=
  mkIssue too_big "content" "Your submission must be less than 5000 characters".

Definition accepted (r : SafeParse) : bool :=
  match r with success _ => true | failure _ => false end.

(** The same form with another value typed in the age field. *)
Definition with_age (a : option string) (v : FormValues) : FormValues :=
  {| raw_content := raw_content v; raw_region := raw_region v;
     raw_age := a; raw_occupation := raw_occupation v;
     raw_agree_terms := raw_agree_terms v |}.

(** The attributes of the age field of the page:
    [<input type="number" min="18" max="120">]. *)
Definition age_input_min : Z := 18.
Definition age_input_max : Z := 120.

(** Body of the request [onSubmit] passes to [submitSubmission]. *)
Record SubmissionBody := mkSubmissionBody {
  body_content : string;
  body_region : string;
  body_age : option number;
  body_occupation : option string;
  body_language : string
}.

Definition onSubmit (data : SubmissionForm) : SubmissionBody :=
  {| body_content := content data;
     body_region := region data;
     body_age := age data;
     body_occupation := occupation data;
     body_language := "en" |}.

(** [handleSubmit(onSubmit)]: the resolver runs first, and [onSubmit] is
    called only with the data of a successful parse. *)
Definition handleSubmit (v : FormValues) : list ZodIssue + SubmissionBody :=
  match submissionSchema v with
  | success data => inr (onSubmit data)
  | failure issues => inl issues
  end.

End Submit.

(** ** The toast store: [useToast] and [Toaster]

    The module-level queue [toasts], the counter [toastId] and the
    timers registered with [setTimeout].  Time is a clock in
    milliseconds; the event loop runs a timer's callback when the clock
    has reached the timer's due time. *)

Module Toast.

Inductive Variant := default_variant | success | destructive.

(** [Omit<Toast, 'id'>] *)
Record Props := mkProps {
  title : string;
  description : option string;
  variant : option Variant
}.

Record Toast := mkToast {
  id : string;
  props : Props
}.

Record Timer := mkTimer {
  due : N;
  target : string
}.

Record Store := mkStore {
  toastId : N;
  toasts : list Toast;
  timers : list Timer;
  now : N;
  changes : nat          (* number of [emitChange()] calls so far *)
}.

Definition retention : N := 5000.

Definition init : Store :=
  {| toastId := 0; toasts := []; timers := []; now := 0; changes := 0 |}.

(** [toasts.findIndex(t => t.id === id)]; [None] stands for [-1]. *)
Definition findIndex (i : string) (l : list Toast) : option nat :=
  fst <$> list_find (fun t => id t = i) l.

(** The body shared by the timer callback and by [dismiss]:
    [if (index > -1) { toasts.splice(index, 1); emitChange() }]. *)
Definition remove (i : string) (s : Store) : Store :=
  match findIndex i (toasts s) with
  | Some index =>
      {| toastId := toastId s; toasts := delete index (toasts s);
         timers := timers s; now := now s; changes := S (changes s) |}
  | None => s
  end.

(** [toast(props)] *)
Definition toast (p : Props) (s : Store) : Store :=
  let i := pretty (toastId s) in
  {| toastId := toastId s + 1;
     toasts := toasts s ++ [ {| id := i; props := p |} ];
     timers := timers s ++ [ {| due := now s + retention; target := i |} ];
     now := now s;
     changes := S (changes s) |}.

Definition dismiss (i : string) (s : Store) : Store := remove i s.

Definition fire (s : Store) (t : Timer) : Store := remove (target t) s.

Definition is_due (t' : N) (t : Timer) : bool := (due t <=? t')%N.

(** [dt] milliseconds pass: the timers that have become due run in the
    order they were registered and leave the timer list. *)
Definition advance (dt : N) (s : Store) : Store :=
  let t' := (now s + dt)%N in
  foldl fire
    {| toastId := toastId s; toasts := toasts s;
       timers := filter (fun t => is_due t' t = false) (timers s);
       now := t'; changes := changes s |}
    (filter (fun t => is_due t' t = true) (timers s)).

Inductive Event :=
| Call (p : Props)
| Dismiss (i : string)
| Wait (dt : N).

Definition step (s : Store) (e : Event) : Store :=
  match e with
  | Call p => toast p s
  | Dismiss i => dismiss i s
  | Wait dt => advance dt s
  end.

Definition run (es : list Event) (s : Store) : Store := foldl step s es.

Definition ids (s : Store) : list string := id <$> toasts s.

(** What holds of every store the operations can build: the ids in the
    queue are distinct and were drawn from the counter, every timer is
    still ahead of the clock by at most the retention delay, and every
    toast in the queue has its timer. *)
Definition drawn (s : Store) (i : string) : Prop :=
  exists k, (k < toastId s)%N /\ i = pretty k.

Definition wf (s : Store) : Prop :=
  NoDup (ids s) /\
  (forall i, i ∈ ids s -> drawn s i) /\
  (forall t, t ∈ timers s ->
     drawn s (target t) /\ (now s < due t)%N /\ (due t <= now s + retention)%N) /\
  (forall i, i ∈ ids s -> exists t, t ∈ timers s /\ target t = i).

(** The toast drawn at counter value [k] has its timer due at [D], and
    the counter has moved past [k]. *)
Definition tracked (D k : N) (s : Store) : Prop :=
  wf s /\ (k < toastId s)%N /\
  (forall t, t ∈ timers s -> target t = pretty k -> due t = D).

End Toast.

(** ** lib/api.ts *)

Module Api.

(** The browser's [localStorage]. *)
Abbreviation LocalStorage := (gmap string string).

(** Body of [POST /api/vote]. *)
Record VoteBody := mkVoteBody {
  clause_id : Z;
  vote : string;
  region : option string
}.

Record Request := mkRequest {
  url : string;
  authorization : option string;
  data : VoteBody
}.

(** The request interceptor: a stored, non-empty [auth_token] is sent as
    a bearer token. *)
Definition interceptor (ls : LocalStorage) : option string :=
  match ls !! "auth_token" with
  | Some (String _ _ as token) => Some ("Bearer " +:+ token)
  | _ => None
  end.

Definition post (ls : LocalStorage) (url : string) (data : VoteBody) : Request :=
  {| url := url; authorization := interceptor ls; data := data |}.

(** [submitVote(clauseId, vote, region?)] *)
Definition submitVote (ls : LocalStorage) (clauseId : Z) (vote : string)
  (region : option string) : Request :=
  post ls "/api/vote" {| clause_id := clauseId; vote := vote; region := region |}.

End Api.

(** ** app/bill/page.tsx *)

Module Bill.

Record BillClause := mkBillClause {
  id : Z;
  section_number : Z;
  title : string;
  content : string;
  rationale : string;
  cluster_id : Z;
  submission_count : Z;
  approval_rate : Q;
  created_at : string;
  updated_at : string
}.

Inductive VoteType := approve | reject.

#[global] Instance VoteType_eq_dec : EqDecision VoteType.
Proof. solve_decision. Defined.

Definition vote_string (voteType : VoteType) : string :=
  match voteType with approve => "approve" | reject => "reject" end.

(** The component state ([clauses], [votedClauses]) together with what
    the page has done to the outside: the requests sent and the toasts
    shown, latest last. *)
Record Page := mkPage {
  clauses : list BillClause;
  votedClauses : gset Z;
  localStorage : Api.LocalStorage;
  sent : list Api.Request;
  shown : list Toast.Props
}.

Definition Math_max (x y : Q) : Q := Qmax x y.
Definition Math_min (x y : Q) : Q := Qmin x y.

(** [const adjustment = voteType === 'approve' ? 0.5 : -0.5] *)
Definition adjustment (voteType : VoteType) : Q :=
  match voteType with approve => 1 # 2 | reject => - (1 # 2) end%Q.

(** The callback of [clauses.map] in [handleVote]. *)
Definition updateClause (clauseId : Z) (voteType : VoteType)
  (clause : BillClause) : BillClause :=
  if decide (id clause = clauseId) then
    {| id := id clause;
       section_number := section_number clause;
       title := title clause;
       content := content clause;
       rationale := rationale clause;
       cluster_id := cluster_id clause;
       submission_count := submission_count clause;
       approval_rate :=
         Math_max 0 (Math_min 100 (approval_rate clause + adjustment voteType))%Q;
       created_at := created_at clause;
       updated_at := updated_at clause |}
  else clause.

(** The clamping expression of [updateClause], named. *)
Definition clamp (x : Q) : Q := Math_max 0 (Math_min 100 x).

Definition toast (props : Toast.Props) (p : Page) : Page :=
  {| clauses := clauses p; votedClauses := votedClauses p;
     localStorage := localStorage p; sent := sent p;
     shown := shown p ++ [props] |}.

Definition send (r : Api.Request) (p : Page) : Page :=
  {| clauses := clauses p; votedClauses := votedClauses p;
     localStorage := localStorage p; sent := sent p ++ [r];
     shown := shown p |}.

Definition setVotedClauses (s : gset Z) (p : Page) : Page :=
  {| clauses := clauses p; votedClauses := s;
     localStorage := localStorage p; sent := sent p; shown := shown p |}.

Definition setClauses (cs : list BillClause) (p : Page) : Page :=
  {| clauses := cs; votedClauses := votedClauses p;
     localStorage := localStorage p; sent := sent p; shown := shown p |}.

(** [handleVote(clauseId, voteType)].  [resolved] tells whether the
    awaited [submitVote] resolved ([true]) or threw ([false]); that is
    decided by the server and the network. *)
Definition handleVote (resolved : bool) (clauseId : Z) (voteType : VoteType)
  (p : Page) : Page :=
  if decide (clauseId ∈ votedClauses p) then
    toast {| Toast.title := "Already voted";
             Toast.description := Some "You have already voted on this clause";
             Toast.variant := Some Toast.default_variant |} p
  else
    let p1 :=
      send (Api.submitVote (localStorage p) clauseId (vote_string voteType) None) p in
    if resolved then
      let p2 := setVotedClauses (votedClauses p ∪ {[clauseId]}) p1 in
      let p3 := setClauses (updateClause clauseId voteType <$> clauses p) p2 in
      toast {| Toast.title := "Vote recorded";
               Toast.description := Some "Thank you for your feedback!";
               Toast.variant := Some Toast.success |} p3
    else
      toast {| Toast.title := "Vote failed";
               Toast.description := Some "Please try again later";
               Toast.variant := Some Toast.destructive |} p1.

(** One click on a vote button, with the fate of its request. *)
Record Click := mkClick {
  click_resolved : bool;
  click_clause : Z;
  click_vote : VoteType
}.

Definition click (p : Page) (c : Click) : Page :=
  handleVote (click_resolved c) (click_clause c) (click_vote c) p.

Definition clicks (cs : list Click) (p : Page) : Page := foldl click p cs.

(** State of a freshly mounted page after [loadBillData]:
    [useState(new Set())] for [votedClauses]. *)
Definition mount (ls : Api.LocalStorage) (clausesData : list BillClause) : Page :=
  {| clauses := clausesData; votedClauses := ∅; localStorage := ls;
     sent := []; shown := [] |}.

(** A sequence of votes applied to one clause, each by [updateClause]
    (what the page does to a clause over several visits, or once the
    [votedClauses] guard is out of the way). *)
Definition applyVotes (votes : list VoteType) (clause : BillClause) : BillClause :=
  foldl (fun c voteType => updateClause (id c) voteType c) clause votes.

Definition in_range (clause : BillClause) : Prop :=
  (0 <= approval_rate clause /\ approval_rate clause <= 100)%Q.


(** The "Average Approval" tile.  [Math.round] rounds to the nearest
    integer, halves upwards.  A division is defined only for a non-zero
    divisor: JavaScript's own result there (NaN or an infinity) is no
    rational. *)
Definition Math_round (x : Q) : Z := Qfloor (x + (1 # 2))%Q.

Definition divide (x y : Q) : option Q :=
  if Qeq_bool y 0 then None else Some (x / y)%Q.

Definition sumApproval (cs : list BillClause) : Q :=
  foldl (fun sum c => sum + approval_rate c)%Q 0%Q cs.

Definition averageApproval (cs : list BillClause) : option Z :=
  if (0 <? Z.of_nat (length cs))%Z then
    Math_round <$> divide (sumApproval cs) (inject_Z (Z.of_nat (length cs)))
  else Some 0%Z.

(** The arithmetic mean of the approval rates, as a rational. *)
Definition total (cs : list BillClause) : Q :=
  foldr (fun c acc => approval_rate c + acc)%Q 0%Q cs.

Definition mean (cs : list BillClause) : Q :=
  (total cs / inject_Z (Z.of_nat (length cs)))%Q.

End Bill.

(** ** hooks/index.ts *)

Module Hooks.


End Hooks.

(** ** The contract of the Vote Aggregator, in the spec's words *)

Module VoteLog.




End VoteLog.

(** ** The statistics served at [/api/stats] *)

Module Stats.

(** Modelled from the spec: the Stats Aggregator runs in the backend,
    whose sources are not part of the frontend; the frontend only reads
    its output ([getStats], the home page).  The definitions follow the
    spec's words: a submission carries a region; the output has the
    total count, the number of distinct regions with at least one
    submission, the cluster and clause counts, and a mapping from region
    to submission count with every fixed region present, zero-filled. *)
Record Submission := mkSubmission {
  sub_id : Z;
  sub_text : string;
  sub_region : string
}.

Record State := mkState {
  submissions : list Submission;
  clusters : nat;
  clauses : nat
}.

Record Statistics := mkStatistics {
  total_submissions : nat;
  regions_represented : nat;
  clusters_formed : nat;
  clauses_drafted : nat;
  submissions_by_region : gmap string nat
}.

Definition count_region (r : string) (subs : list Submission) : nat :=
  length (filter (fun s => sub_region s = r) subs).

Definition distinct_regions (subs : list Submission) : gset string :=
  list_to_set (sub_region <$> subs).

Definition by_region (subs : list Submission) : gmap string nat :=
  list_to_map ((fun r => (r, count_region r subs)) <$> Submit.GHANA_REGIONS).

Definition stats (st : State) : Statistics :=
  {| total_submissions := length (submissions st);
     regions_represented := size (distinct_regions (submissions st));
     clusters_formed := clusters st;
     clauses_drafted := clauses st;
     submissions_by_region := by_region (submissions st) |}.

End Stats.

(** ** Concrete data used in examples *)

Module Scenario.

Definition clause_at (i : Z) (rate : Q) : Bill.BillClause :=
  {| Bill.id := i; Bill.section_number := i;
     Bill.title := "Declaration of assets";
     Bill.content := "Every public officer shall declare all assets.";
     Bill.rationale := "Citizens asked for yearly declarations.";
     Bill.cluster_id := i; Bill.submission_count := 12;
     Bill.approval_rate := rate;
     Bill.created_at := "2025-01-01T00:00:00Z";
     Bill.updated_at := "2025-01-01T00:00:00Z" |}.

(** A page showing one clause, with approval rate 50.0. *)
Definition page50 : Bill.Page := Bill.mount ∅ [clause_at 1 50].

Definition approve_click (clauseId : Z) : Bill.Click :=
  {| Bill.click_resolved := true; Bill.click_clause := clauseId;
     Bill.click_vote := Bill.approve |}.

(** The same page after an approve vote on its clause was recorded. *)
Definition voted_page : Bill.Page := Bill.handleVote true 1 Bill.approve page50.


Definition note : Toast.Props :=
  {| Toast.title := "Vote recorded";
     Toast.description := Some "Thank you for your feedback!";
     Toast.variant := Some Toast.success |}.

(** A store in which one toast was shown 100 ms ago. *)
Definition busy : list Toast.Event := [Toast.Call note; Toast.Wait 100].

(** The form filled in with the text ["ok"]. *)
Definition form_ok : Submit.FormValues :=
  {| Submit.raw_content := "ok"; Submit.raw_region := "Ashanti";
     Submit.raw_age := None; Submit.raw_occupation := None;
     Submit.raw_agree_terms := true |}.

(** A valid form with [a] typed in the age field. *)
Definition form_age (a : string) : Submit.FormValues :=
  {| Submit.raw_content := "Declare all assets every year";
     Submit.raw_region := "Ashanti"; Submit.raw_age := Some a;
     Submit.raw_occupation := Some "Teacher";
     Submit.raw_agree_terms := true |}.

End Scenario.

(** One submission from every region, in the order of [GHANA_REGIONS]. *)
Module Census.

Definition one_per_region : list Stats.Submission :=
  imap (fun i r => {| Stats.sub_id := Z.of_nat i;
                      Stats.sub_text := "Public officers must declare assets";
                      Stats.sub_region := r |})
       Submit.GHANA_REGIONS.

Definition state : Stats.State :=
  {| Stats.submissions := one_per_region; Stats.clusters := 0; Stats.clauses := 0 |}.

End Census.

(** ** Requests by clause *)

Module Wire.

(** The request is a vote on clause [i]. *)
Definition for_clause (i : Z) (r : Api.Request) : Prop :=
  Api.clause_id (Api.data r) = i.

#[global] Instance for_clause_dec (i : Z) (r : Api.Request) :
  Decision (for_clause i r).
Proof. unfold for_clause. apply _. Defined.

End Wire.

(** ** lib/api.ts: the admin session *)

Module Auth.

(** [response.data] of [POST /api/admin/login]; [user] is the text
    [JSON.stringify] gives for the user object. *)
Record LoginData := mkLoginData {
  access_token : string;
  user : string
}.

(** What [adminLogin] does to [localStorage] once the request has
    resolved. *)
Definition adminLogin (data : LoginData) (ls : Api.LocalStorage)
  : Api.LocalStorage :=
  <["user" := user data]> (<["auth_token" := access_token data]> ls).

(** [adminLogout()]: the storage afterwards and the page it goes to. *)
Definition adminLogout (ls : Api.LocalStorage) : Api.LocalStorage * string :=
  (delete "user" (delete "auth_token" ls), "/admin/login").

(** [!!localStorage.getItem('auth_token')] *)
Definition isAuthenticated (ls : Api.LocalStorage) : bool :=
  match ls !! "auth_token" with
  | Some (String _ _) => true
  | _ => false
  end.

(** [pathname.startsWith(p)] *)
Definition startsWith (p pathname : string) : bool := String.prefix p pathname.

(** The error branch of the response interceptor, before it rejects:
    [status] is [error.response?.status]; the result is the storage
    afterwards and the page the browser is sent to, if any. *)
Definition onResponseError (status : option Z) (pathname : string)
  (ls : Api.LocalStorage) : Api.LocalStorage * option string :=
  if decide (status = Some 401) then
    (delete "auth_token" ls,
     if startsWith "/admin" pathname then Some "/admin/login" else None)
  else (ls, None).

End Auth.

(** ** app/bill/page.tsx: votes in flight

    [handleVote] is an [async] function.  A call runs up to
    [await submitVote(...)] and its remainder runs when the reply is in;
    until then the buttons stay enabled and further calls can start.
    The remainder reads [clauses] and [votedClauses] of the render in
    which the call was made, not the current ones. *)

Module Visit.

(** A call of [handleVote] suspended at its [await], with the state its
    closure holds. *)
Record Handler := mkHandler {
  seen_clauses : list Bill.BillClause;
  seen_voted : gset Z;
  handler_clause : Z;
  handler_vote : Bill.VoteType
}.

Record State := mkState {
  page : Bill.Page;
  pending : list Handler
}.

(** The fate of a request: it resolves, or it is rejected with
    [error.response?.status] ([None] when there was no response). *)
Inductive Reply := resolved | rejected (status : option Z).

(** What happens on the page: [handleVote(clauseId, voteType)] is
    called, or the request of the [k]-th suspended call is answered. *)
Inductive Event :=
| Vote (clauseId : Z) (voteType : Bill.VoteType)
| Settle (k : nat) (reply : Reply).

(** The bill page is served at [/bill]. *)
Definition pathname : string := "/bill".

Definition already_voted : Toast.Props :=
  {| Toast.title := "Already voted";
     Toast.description := Some "You have already voted on this clause";
     Toast.variant := Some Toast.default_variant |}.

Definition vote_recorded : Toast.Props :=
  {| Toast.title := "Vote recorded";
     Toast.description := Some "Thank you for your feedback!";
     Toast.variant := Some Toast.success |}.

Definition vote_failed : Toast.Props :=
  {| Toast.title := "Vote failed";
     Toast.description := Some "Please try again later";
     Toast.variant := Some Toast.destructive |}.

Definition setLocalStorage (ls : Api.LocalStorage) (p : Bill.Page) : Bill.Page :=
  {| Bill.clauses := Bill.clauses p; Bill.votedClauses := Bill.votedClauses p;
     Bill.localStorage := ls; Bill.sent := Bill.sent p;
     Bill.shown := Bill.shown p |}.

(** [handleVote] up to its [await]: the guard, then the request. *)
Definition call (clauseId : Z) (voteType : Bill.VoteType) (s : State) : State :=
  let p := page s in
  if decide (clauseId ∈ Bill.votedClauses p) then
    {| page := Bill.toast already_voted p; pending := pending s |}
  else
    {| page :=
         Bill.send (Api.submitVote (Bill.localStorage p) clauseId
                      (Bill.vote_string voteType) None) p;
       pending :=
         pending s ++ [ {| seen_clauses := Bill.clauses p;
                           seen_voted := Bill.votedClauses p;
                           handler_clause := clauseId;
                           handler_vote := voteType |} ] |}.

(** The remainder of a suspended call [h]: after a resolved request the
    two state setters and the toast; after a rejected one the response
    interceptor, then the [catch] branch. *)
Definition resume (h : Handler) (reply : Reply) (p : Bill.Page) : Bill.Page :=
  match reply with
  | resolved =>
      let p1 := Bill.setVotedClauses (seen_voted h ∪ {[handler_clause h]}) p in
      let p2 :=
        Bill.setClauses
          (Bill.updateClause (handler_clause h) (handler_vote h)
             <$> seen_clauses h) p1 in
      Bill.toast vote_recorded p2
  | rejected status =>
      let ls := (Auth.onResponseError status pathname (Bill.localStorage p)).1 in
      Bill.toast vote_failed (setLocalStorage ls p)
  end.

Definition settle (k : nat) (reply : Reply) (s : State) : State :=
  match pending s !! k with
  | Some h => {| page := resume h reply (page s); pending := delete k (pending s) |}
  | None => s
  end.

Definition step (s : State) (e : Event) : State :=
  match e with
  | Vote clauseId voteType => call clauseId voteType s
  | Settle k reply => settle k reply s
  end.

Definition run (es : list Event) (s : State) : State := foldl step s es.

(** A page on which no request is in flight. *)
Definition start (p : Bill.Page) : State := {| page := p; pending := [] |}.




(** The calls of [handleVote] in a history. *)
Definition called (es : list Event) : list (Z * Bill.VoteType) :=
  omap (fun e => match e with
                 | Vote clauseId voteType => Some (clauseId, voteType)
                 | Settle _ _ => None
                 end) es.

#[global] Instance Variant_eq_dec : EqDecision Toast.Variant.
Proof. solve_decision. Defined.

#[global] Instance Props_eq_dec : EqDecision Toast.Props.
Proof. solve_decision. Defined.


(** How a clause [c'] held by a render relates to the clause [c] that
    was loaded in its place: it is [c], or it is [c] after one nudge by
    a vote of [votes]; in that case the clause is marked as voted on and
    was not so marked when the visit began ([base]). *)
Definition nudged (base : gset Z) (votes : list (Z * Bill.VoteType))
  (voted : gset Z) (c c' : Bill.BillClause) : Prop :=
  c' = c \/
  (Bill.id c ∈ voted /\ (Bill.id c ∉ base) /\
   exists v, (Bill.id c, v) ∈ votes /\ c' = Bill.updateClause (Bill.id c) v c).

Definition snapshot (base : gset Z) (votes : list (Z * Bill.VoteType))
  (loaded cs : list Bill.BillClause) (voted : gset Z) : Prop :=
  base ⊆ voted /\ Forall2 (nudged base votes voted) loaded cs.

(** The render on show and the closure of every suspended call are
    snapshots of the loaded clauses, and no suspended call is for a
    clause its closure has as voted on. *)
Definition consistent (base : gset Z) (votes : list (Z * Bill.VoteType))
  (loaded : list Bill.BillClause) (s : State) : Prop :=
  snapshot base votes loaded
    (Bill.clauses (page s)) (Bill.votedClauses (page s)) /\
  Forall (fun h =>
            snapshot base votes loaded (seen_clauses h) (seen_voted h) /\
            (handler_clause h ∉ seen_voted h) /\
            (handler_clause h, handler_vote h) ∈ votes)
         (pending s).

End Visit.

(** ** JavaScript numbers as IEEE 754 doubles

    Where the rounding of double-precision arithmetic decides what the
    page shows, numbers are the kernel's binary64 floats. *)

Module Double.

Abbreviation float := PrimFloat.float.

(** The exact value of a finite double; [None] for NaN and the
    infinities. *)
Definition value (x : float) : option Q :=
  match FloatOps.Prim2SF x with
  | SpecFloat.S754_zero _ => Some 0%Q
  | SpecFloat.S754_finite s m e =>
      let n := if s then Z.neg m else Z.pos m in
      Some (if 0 <=? e then inject_Z (n * 2 ^ e)
            else Qmake n (Z.to_pos (2 ^ (- e))))
  | _ => None
  end.

(** The double nearest to a rational, ties to even: what reading a
    numeric literal (in JSON, in an input field) gives.  The quotient is
    taken with more than 64 bits and a sticky bit, then rounded once. *)
Definition nearest (q : Q) : float :=
  match Qnum q with
  | 0 => PrimFloat.zero
  | n =>
      let d := Z.pos (Qden q) in
      let s := Z.max 0 (66 + Z.log2 d - Z.log2 (Z.abs n)) in
      let num := Z.abs n * 2 ^ s in
      let m := 2 * (num / d) + (if num mod d =? 0 then 0 else 1) in
      FloatOps.SF2Prim
        (SpecFloat.binary_normalize FloatOps.prec FloatOps.emax
           (Z.sgn n * m) (- s - 1) false)
  end.

(** An integer as a number. *)
Definition Number (n : Z) : float := nearest (inject_Z n).

(** What the page prints for a number. *)
Inductive Printed := NaN | Infinity (negative : bool) | Int (z : Z).

(** [Math.round(x)]: the integer nearest to [x], halves upwards; NaN and
    the infinities are returned as they are. *)
Definition Math_round (x : float) : Printed :=
  match value x with
  | Some q => Int (Bill.Math_round q)
  | None =>
      if PrimFloat.is_nan x then NaN
      else Infinity (PrimFloat.ltb x PrimFloat.zero)
  end.

Record BillClause := mkBillClause {
  id : Z;
  section_number : Z;
  title : string;
  content : string;
  rationale : string;
  cluster_id : Z;
  submission_count : Z;
  approval_rate : float;
  created_at : string;
  updated_at : string
}.

(** [x / n] for a count [n].  JavaScript's quotient by zero is NaN or an
    infinity; here it is [None], so that it shows. *)
Definition divide (x : float) (n : Z) : option float :=
  if n =? 0 then None else Some (PrimFloat.div x (Number n)).

(** [clauses.reduce((sum, c) => sum + c.approval_rate, 0)] *)
Definition sumApproval (clauses : list BillClause) : float :=
  foldl (fun sum c => PrimFloat.add sum (approval_rate c)) PrimFloat.zero clauses.

(** The "Average Approval" tile. *)
Definition averageApproval (clauses : list BillClause) : option Printed :=
  if 0 <? Z.of_nat (length clauses) then
    Math_round <$> divide (sumApproval clauses) (Z.of_nat (length clauses))
  else Some (Int 0).


(** The arithmetic mean of exact rates. *)
Definition mean (rates : list Q) : Q :=
  (foldr Qplus 0 rates / inject_Z (Z.of_nat (length rates)))%Q.



End Double.

(** ** app/submit/page.tsx: the form in the browser

    The form has no [noValidate], so the browser checks the constraints
    of its controls before it fires the submit event; only the age field
    has any: [type="number" min="18" max="120"], with the default step
    of 1 counted from [min]. *)

Module Form.

(** The ASCII digits at the head of [s]: their value, their number and
    the rest of [s]. *)
Fixpoint digits (s : string) (acc : Z) (n : nat) : Z * nat * string :=
  match s with
  | String c rest =>
      let k := Submit.char_code c in
      if (48 <=? k) && (k <=? 57) then digits rest (acc * 10 + (k - 48)) (S n)
      else (acc, n, s)
  | EmptyString => (acc, n, s)
  end.

(** The exponent part after [e] or [E]: an optional sign and at least
    one digit, up to the end of the string. *)
Definition exponent (s : string) : option Z :=
  let '(sign, t) :=
    match s with
    | String "-" t => (-1, t)
    | String "+" t => (1, t)
    | _ => (1, s)
    end in
  match digits t 0 0 with
  | (x, S _, EmptyString) => Some (sign * x)
  | _ => None
  end.

(** HTML's valid floating-point number: an optional [-], digits or a
    point followed by digits or both, an optional exponent; its value,
    exactly. *)
Definition decimal (s : string) : option Q :=
  let '(sign, s1) :=
    match s with
    | String "-" t => (-1, t)
    | _ => (1, s)
    end in
  let '(i, ni, s2) := digits s1 0 0 in
  let '(f, nf, s3, point_ok) :=
    match s2 with
    | String "." t =>
        let '(f, nf, t') := digits t 0 0 in (f, nf, t', negb (Nat.eqb nf 0))
    | _ => (0, 0%nat, s2, true)
    end in
  if point_ok && negb (Nat.eqb (ni + nf) 0) then
    let mantissa :=
      (inject_Z (sign * (i * 10 ^ Z.of_nat nf + f))
       / inject_Z (10 ^ Z.of_nat nf))%Q in
    match s3 with
    | EmptyString => Some mantissa
    | String c t =>
        if (Submit.char_code c =? 101) || (Submit.char_code c =? 69) then
          match exponent t with
          | Some x => Some (mantissa * inject_Z 10 ^ x)%Q
          | None => None
          end
        else None
    end
  else None.

Definition is_integer (q : Q) : bool := Qeq_bool q (inject_Z (Qfloor q)).

(** Constraint validation of [<input type="number" min max>] on the text
    in the field: an empty field is valid (the field is not required);
    otherwise the text must be a valid floating-point number whose
    value, as a double, is within the bounds and a whole number of steps
    from [min]. *)
Definition number_input_valid (min max : Z) (typed : string) : bool :=
  match typed with
  | EmptyString => true
  | _ =>
      match decimal typed with
      | Some q =>
          match Double.value (Double.nearest q) with
          | Some x =>
              Qle_bool (inject_Z min) x && Qle_bool x (inject_Z max)
              && is_integer (x - inject_Z min)
          | None => false
          end
      | None => false
      end
  end.

Inductive Outcome :=
| held_back
| invalid (issues : list Submit.ZodIssue)
| posted (body : Submit.SubmissionBody).

(** A click on the submit button: the browser's check of the age field,
    then [handleSubmit(onSubmit)]. *)
Definition submit (v : Submit.FormValues) : Outcome :=
  if number_input_valid Submit.age_input_min Submit.age_input_max
       (default "" (Submit.raw_age v))
  then
    match Submit.handleSubmit v with
    | inl issues => invalid issues
    | inr body => posted body
    end
  else held_back.

End Form.

(** ** More concrete data used in examples *)

Module Cases.




(** The page of [voted_page] with nothing in flight, then a call for
    each of two clauses and the reply to the second. *)
Definition after_recorded : Visit.State :=
  Visit.run [Visit.Vote 1 Bill.reject; Visit.Vote 2 Bill.approve;
             Visit.Settle 0 Visit.resolved]
    (Visit.start Scenario.voted_page).

(** A page showing two clauses. *)
Definition two_clauses : Bill.Page :=
  Bill.mount ∅ [Scenario.clause_at 1 50; Scenario.clause_at 2 60].

(** Both clauses voted on before either reply; both requests resolve. *)
Definition two_overlapping : Visit.State :=
  Visit.run [Visit.Vote 1 Bill.approve; Visit.Vote 2 Bill.reject;
             Visit.Settle 0 Visit.resolved; Visit.Settle 0 Visit.resolved]
    (Visit.start two_clauses).



End Cases.

(** ** lib/utils.ts: region colours and reading time *)

Module Text.

(** The object literal [colors] of [getRegionColor], key by key. *)
Definition colors : list (string * string) :=
  [ ("Greater Accra", "bg-blue-100 text-blue-800");
    ("Ashanti", "bg-yellow-100 text-yellow-800");
    ("Western", "bg-green-100 text-green-800");
    ("Eastern", "bg-purple-100 text-purple-800");
    ("Central", "bg-red-100 text-red-800");
    ("Volta", "bg-indigo-100 text-indigo-800");
    ("Northern", "bg-orange-100 text-orange-800");
    ("Upper East", "bg-pink-100 text-pink-800");
    ("Upper West", "bg-teal-100 text-teal-800");
    ("Bono", "bg-cyan-100 text-cyan-800");
    ("Bono East", "bg-lime-100 text-lime-800");
    ("Ahafo", "bg-amber-100 text-amber-800");
    ("Western North", "bg-emerald-100 text-emerald-800");
    ("Oti", "bg-violet-100 text-violet-800");
    ("North East", "bg-fuchsia-100 text-fuchsia-800");
    ("Savannah", "bg-rose-100 text-rose-800") ].

Definition fallback : string := "bg-gray-100 text-gray-800".

(** The property names every object literal inherits from
    [Object.prototype]; [colors[name]] is then a function or an object,
    which is truthy. *)
Definition Object_prototype : list string :=
  [ "constructor"; "__proto__"; "hasOwnProperty"; "isPrototypeOf";
    "propertyIsEnumerable"; "toLocaleString"; "toString"; "valueOf";
    "__defineGetter__"; "__defineSetter__"; "__lookupGetter__";
    "__lookupSetter__" ].

(** What [getRegionColor] returns: a class string, or an inherited
    member of the object, which is no string. *)
Inductive Color := classes (c : string) | inherited (name : string).

Fixpoint own (key : string) (o : list (string * string)) : option string :=
  match o with
  | [] => None
  | (k, v) :: o' => if decide (k = key) then Some v else own key o'
  end.

(** [colors[region] || 'bg-gray-100 text-gray-800']; every value of the
    literal is a non-empty string, hence truthy. *)
Definition getRegionColor (region : string) : Color :=
  match own region colors with
  | Some v => classes v
  | None =>
      if decide (region ∈ Object_prototype) then inherited region
      else classes fallback
  end.

(** [text.trim()] *)
Fixpoint trim_end (s : string) : string :=
  match s with
  | EmptyString => EmptyString
  | String c s' =>
      match trim_end s' with
      | EmptyString => if Submit.is_white_space c then EmptyString
                       else String c EmptyString
      | rest => String c rest
      end
  end.

Definition trim (s : string) : string := trim_end (Submit.trim_start s).

(** [s.split(/\s+/)]: the pieces between maximal runs of white space.
    [cur] is the piece being read, [in_sep] tells that the last code
    unit belonged to a separator. *)
Fixpoint split_go (in_sep : bool) (cur : string) (s : string) : list string :=
  match s with
  | EmptyString => [cur]
  | String c s' =>
      if Submit.is_white_space c then
        if in_sep then split_go true cur s'
        else cur :: split_go true EmptyString s'
      else split_go false (cur +:+ String c EmptyString) s'
  end.

Definition split_ws (s : string) : list string := split_go false EmptyString s.

Definition wordsPerMinute : Z := 200.

(** [Math.ceil(x / y)] for integers [x] and [y > 0]. *)
Definition ceil_div (x y : Z) : Z := (x + y - 1) / y.

(** [calculateReadingTime(text)] *)
Definition calculateReadingTime (text : string) : Z :=
  let words := Z.of_nat (length (split_ws (trim text))) in
  ceil_div words wordsPerMinute.

End Text.

(** ** lib/utils.ts: [throttle] and [debounce]

    As for the toast store, time is a clock in milliseconds and a timer
    runs when the clock has reached its due time.  [func] is taken to
    return normally and not to call the wrapper itself; what is recorded
    of a call of [func] is when it happened and with which arguments. *)

Module Throttle.

Section WithArgs.

Context {A : Type}.

Record State := mkState {
  inThrottle : bool;
  timers : list N;          (* due times of [() => inThrottle = false] *)
  now : N;
  calls : list (N * A)
}.

(** [let inThrottle: boolean]: undefined, hence falsy, at first. *)
Definition init : State :=
  {| inThrottle := false; timers := []; now := 0; calls := [] |}.

(** One call of the function [throttle(func, limit)] returns. *)
Definition invoke (limit : N) (args : A) (s : State) : State :=
  if inThrottle s then s
  else {| inThrottle := true;
          timers := timers s ++ [(now s + limit)%N];
          now := now s;
          calls := calls s ++ [(now s, args)] |}.

Definition reset (s : State) (due : N) : State :=
  {| inThrottle := false; timers := timers s; now := now s; calls := calls s |}.

Definition advance (dt : N) (s : State) : State :=
  let t' := (now s + dt)%N in
  foldl reset
    {| inThrottle := inThrottle s;
       timers := filter (fun d => (t' < d)%N) (timers s);
       now := t'; calls := calls s |}
    (filter (fun d => (d <= t')%N) (timers s)).

Inductive Event := Invoke (args : A) | Wait (dt : N).

Definition step (limit : N) (s : State) (e : Event) : State :=
  match e with
  | Invoke args => invoke limit args s
  | Wait dt => advance dt s
  end.

Definition run (limit : N) (es : list Event) (s : State) : State :=
  foldl (step limit) s es.

End WithArgs.

Arguments State : clear implicits.
Arguments Event : clear implicits.

End Throttle.

Module Debounce.

Section WithArgs.

Context {A : Type}.

(** [timeout] is the timer that is still to run, with its due time and
    the arguments its [later] closure holds. *)
Record State := mkState {
  timeout : option (N * A);
  now : N;
  calls : list (N * A)
}.

Definition init : State := {| timeout := None; now := 0; calls := [] |}.

(** One call of the function [debounce(func, wait)] returns:
    [clearTimeout(timeout); timeout = setTimeout(later, wait)]. *)
Definition invoke (wait : N) (args : A) (s : State) : State :=
  {| timeout := Some ((now s + wait)%N, args); now := now s; calls := calls s |}.

(** [dt] milliseconds pass; a due timer runs [later], which calls
    [func(...args)]. *)
Definition advance (dt : N) (s : State) : State :=
  let t' := (now s + dt)%N in
  match timeout s with
  | Some (due, args) =>
      if (due <=? t')%N
      then {| timeout := None; now := t'; calls := calls s ++ [(due, args)] |}
      else {| timeout := timeout s; now := t'; calls := calls s |}
  | None => {| timeout := None; now := t'; calls := calls s |}
  end.

Inductive Event := Invoke (args : A) | Wait (dt : N).

Definition step (wait : N) (s : State) (e : Event) : State :=
  match e with
  | Invoke args => invoke wait args s
  | Wait dt => advance dt s
  end.

Definition run (wait : N) (es : list Event) (s : State) : State :=
  foldl (step wait) s es.

End WithArgs.

Arguments State : clear implicits.
Arguments Event : clear implicits.


End Debounce.

(** ** app/page.tsx: the regions shown on the home page *)

Module Home.

(** One entry of [Object.entries(stats.submissions_by_region)]. *)
Abbreviation Entry := (string * Z)%type.

(** The comparator [([,a], [,b]) => b - a] puts [x] before [y] when the
    count of [x] is larger, and leaves them in place when the counts are
    equal.  [Array.prototype.sort] is stable, so its result is the one
    of any stable sort; here, insertion from the right. *)
Fixpoint insert (x : Entry) (l : list Entry) : list Entry :=
  match l with
  | [] => [x]
  | y :: l' => if x.2 <? y.2 then y :: insert x l' else x :: y :: l'
  end.

Definition sort (l : list Entry) : list Entry := foldr insert [] l.

(** [Object.entries(stats.submissions_by_region || {}).sort(...).slice(0, 8)];
    [None] stands for a missing [submissions_by_region]. *)
Definition topRegions (submissions_by_region : option (list Entry)) : list Entry :=
  take 8 (sort (default [] submissions_by_region)).

Definition more (x y : Entry) : Prop := y.2 <= x.2.

End Home.

(** ** lib/utils.ts: [validateEmail]

    The regular expression of the source is kept as a term; [test] is
    matching by derivatives.  The pattern is anchored at both ends and
    has no flags, so [re.test(email)] holds when the whole string
    matches. *)

Module Regex.

Inductive re :=
| Empty                         (* matches nothing *)
| Eps                           (* the empty string *)
| Chr (p : ascii -> bool)       (* one code unit of a class *)
| Seq (r1 r2 : re)
| Alt (r1 r2 : re)
| Star (r : re).

(** [r+] *)
Definition Plus (r : re) : re := Seq r (Star r).

Fixpoint nullable (r : re) : bool :=
  match r with
  | Empty => false
  | Eps => true
  | Chr _ => false
  | Seq r1 r2 => nullable r1 && nullable r2
  | Alt r1 r2 => nullable r1 || nullable r2
  | Star _ => true
  end.

Fixpoint deriv (c : ascii) (r : re) : re :=
  match r with
  | Empty => Empty
  | Eps => Empty
  | Chr p => if p c then Eps else Empty
  | Seq r1 r2 =>
      if nullable r1 then Alt (Seq (deriv c r1) r2) (deriv c r2)
      else Seq (deriv c r1) r2
  | Alt r1 r2 => Alt (deriv c r1) (deriv c r2)
  | Star r' => Seq (deriv c r') (Star r')
  end.

Definition matches (r : re) (s : list ascii) : bool :=
  nullable (foldl (fun r c => deriv c r) r s).

(** The strings a regular expression stands for. *)
Inductive lang : re -> list ascii -> Prop :=
| lang_eps : lang Eps []
| lang_chr p c : p c = true -> lang (Chr p) [c]
| lang_seq r1 r2 s1 s2 : lang r1 s1 -> lang r2 s2 -> lang (Seq r1 r2) (s1 ++ s2)
| lang_alt_l r1 r2 s : lang r1 s -> lang (Alt r1 r2) s
| lang_alt_r r1 r2 s : lang r2 s -> lang (Alt r1 r2) s
| lang_star_nil r : lang (Star r) []
| lang_star_cons r s1 s2 :
    lang r s1 -> lang (Star r) s2 -> lang (Star r) (s1 ++ s2).

(** [[^\s@]] *)
Definition not_space_at (c : ascii) : bool :=
  negb (Submit.is_white_space c) && negb (Ascii.eqb c "@").

Definition is_char (d c : ascii) : bool := Ascii.eqb c d.

(** [/^[^\s@]+@[^\s@]+\.[^\s@]+$/] *)
Definition email_re : re :=
  Seq (Plus (Chr not_space_at))
    (Seq (Chr (is_char "@"))
       (Seq (Plus (Chr not_space_at))
          (Seq (Chr (is_char "."))
             (Plus (Chr not_space_at))))).

(** [validateEmail(email)] *)
Definition validateEmail (email : string) : bool :=
  matches email_re (list_ascii_of_string email).

(** A non-empty run of code units other than white space and [@]. *)
Definition plain (s : list ascii) : Prop :=
  s <> [] /\ Forall (fun c => not_space_at c = true) s.

End Regex.

(** * Properties *)

Section StringFacts.

Lemma length_prefix (n : nat) (s : string) :
  (n <= String.length s)%nat -> String.length (JS.prefix n s) = n.
Proof.
  revert s; induction n as [|n IH]; intros [|c s] Hn; simpl in *; try lia.
  rewrite IH; lia.
Qed.

Lemma length_app_string (s t : string) :
  String.length (s +:+ t) = (String.length s + String.length t)%nat.
Proof. induction s as [|c s IH]; simpl; [reflexivity | now rewrite IH]. Qed.

Lemma prefix_app_drop (n : nat) (s : string) :
  JS.prefix n s +:+ JS.drop n s = s.
Proof.
  revert s; induction n as [|n IH]; intros [|c s]; simpl; try reflexivity.
  change (String c (JS.prefix n s +:+ JS.drop n s) = String c s).
  f_equal. apply IH.
Qed.

Lemma rel_index_nonneg (l i : Z) :
  0 <= i <= l -> JS.rel_index l i = i.
Proof.
  intros Hi. unfold JS.rel_index.
  destruct (Z.ltb_spec i 0); lia.
Qed.

Lemma len_nonneg (s : string) : 0 <= JS.len s.
Proof. unfold JS.len; lia. Qed.

Lemma slice_0_nonneg (s : string) (n : Z) :
  0 <= n <= JS.len s -> JS.slice s 0 n = JS.prefix (Z.to_nat n) s.
Proof.
  intros Hn. unfold JS.slice.
  rewrite !rel_index_nonneg by (pose proof (len_nonneg s); lia).
  destruct (Z.leb_spec n 0) as [H0|H0].
  - assert (n = 0) by lia. subst. reflexivity.
  - rewrite Z.sub_0_r. reflexivity.
Qed.

End StringFacts.

(** ** [truncateText] *)

Section TruncateText.

(** C9, as amended: for every string [text] and every non-negative
    integer [maxLength], [truncateText text maxLength] is [text] itself
    when [text] has at most [maxLength] code units, and otherwise the
    first [maxLength] code units of [text] followed by ["..."], a string
    of length [maxLength + 3]; without a second argument [maxLength] is
    100. *)
Theorem truncateText_spec (text : string) (maxLength : Z) :
  0 <= maxLength ->
  let r := Utils.truncateText text (Some maxLength) in
  (JS.len text <= maxLength -> r = text) /\
  (maxLength < JS.len text ->
     r = JS.prefix (Z.to_nat maxLength) text +:+ "..." /\
     JS.len (JS.prefix (Z.to_nat maxLength) text) = maxLength /\
     (exists rest, text = JS.prefix (Z.to_nat maxLength) text +:+ rest) /\
     JS.len r = maxLength + 3) /\
  Utils.truncateText text None = Utils.truncateText text (Some 100).
Proof.
  intros Hm r. subst r. unfold Utils.truncateText. simpl default.
  split; [|split]; [| |reflexivity].
  - intros Hle. destruct (Z.leb_spec (JS.len text) maxLength); [reflexivity|lia].
  - intros Hlt. destruct (Z.leb_spec (JS.len text) maxLength); [lia|].
    rewrite slice_0_nonneg by lia.
    assert (Hp : JS.len (JS.prefix (Z.to_nat maxLength) text) = maxLength).
    { unfold JS.len in *. rewrite length_prefix by lia. lia. }
    split; [reflexivity|]. split; [exact Hp|]. split.
    { eexists. symmetry. apply prefix_app_drop. }
    unfold JS.len in *. rewrite length_app_string. simpl String.length. lia.
Qed.

Lemma truncateText_spec_witness :
  Utils.truncateText "Reverse Burden" (Some 7) = "Reverse..." /\
  Utils.truncateText "Bill" (Some 7) = "Bill".
Proof.
  assert (H07 : 0 <= 7) by lia.
  split.
  - pose proof (truncateText_spec "Reverse Burden" 7 H07) as [_ [H _]].
    destruct H as [H _]; [vm_compute; reflexivity|]. exact H.
  - pose proof (truncateText_spec "Bill" 7 H07) as [H _].
    apply H. vm_compute. discriminate.
Defined.

(** C9 as first stated fails for a negative [maxLength]: [slice(0, -2)]
    drops the last two code units instead of keeping the first
    [maxLength], and the result has 6 code units, not [-2 + 3]. *)
Lemma truncateText_negative_maxLength :
  -2 < JS.len "hello" /\
  Utils.truncateText "hello" (Some (-2)) = "hel..." /\
  Utils.truncateText "hello" (Some (-2))
    <> JS.prefix (Z.to_nat (-2)) "hello" +:+ "..." /\
  JS.len (Utils.truncateText "hello" (Some (-2))) <> -2 + 3.
Proof. vm_compute. repeat split; discriminate. Qed.

End TruncateText.

(** ** The submission schema *)

Section SubmissionSchema.

Import Submit.

Lemma content_issues_cases (text : string) :
  parse_string "content" content_checks text =
    if JS.len text <? 10 then [too_short]
    else if 5000 <? JS.len text then [too_long] else [].
Proof.
  unfold parse_string, content_checks. simpl flat_map.
  destruct (Z.ltb_spec (JS.len text) 10), (Z.ltb_spec 5000 (JS.len text));
    try reflexivity; lia.
Qed.

Lemma schema_failure_iff (v : FormValues) (issues : list ZodIssue) :
  submissionSchema v = failure issues <->
  schema_issues v = issues /\ issues <> [].
Proof.
  unfold submissionSchema. destruct (schema_issues v) as [|i l]; split.
  - discriminate.
  - intros [<- H]. now destruct H.
  - intros [= <-]. split; [reflexivity|discriminate].
  - intros [<- _]. reflexivity.
Qed.

(** C4: the length check on the raw text reports the minimum-length
    issue exactly when the text has fewer than 10 code units, the
    maximum-length issue exactly when it has more than 5000, and nothing
    when the length is between 10 and 5000 inclusive; a submission whose
    text fails the check is rejected by the schema with that issue, and
    the text ["ok"] is rejected with the minimum-length issue. *)
Theorem content_length_check (v : FormValues) :
  let text := raw_content v in
  let issues := parse_string "content" content_checks text in
  (JS.len text < 10 <-> issues = [too_short]) /\
  (5000 < JS.len text <-> issues = [too_long]) /\
  (10 <= JS.len text <= 5000 <-> issues = []) /\
  (JS.len text < 10 \/ 5000 < JS.len text ->
     exists rest, submissionSchema v = failure (issues ++ rest)
                  /\ (issues = [too_short] \/ issues = [too_long])) /\
  (text = "ok" ->
     exists rest, submissionSchema v = failure (too_short :: rest)).
Proof.
  intros text issues. subst issues.
  rewrite content_issues_cases.
  assert (Hrej : forall i, parse_string "content" content_checks text = [i] ->
            exists rest, submissionSchema v = failure ([i] ++ rest)).
  { intros i Hi. eexists. apply schema_failure_iff. split; [|discriminate].
    unfold schema_issues. fold text. rewrite Hi. reflexivity. }
  rewrite content_issues_cases in Hrej.
  destruct (Z.ltb_spec (JS.len text) 10) as [H10|H10];
    [|destruct (Z.ltb_spec 5000 (JS.len text)) as [H5|H5]].
  - repeat split; try (intros; (reflexivity || lia || discriminate)).
    + intros _. destruct (Hrej too_short eq_refl) as [rest Hr].
      exists rest. split; [exact Hr|now left].
    + intros _. destruct (Hrej too_short eq_refl) as [rest Hr].
      exists rest. exact Hr.
  - repeat split; try (intros; (reflexivity || lia || discriminate)).
    + intros _. destruct (Hrej too_long eq_refl) as [rest Hr].
      exists rest. split; [exact Hr|now right].
    + intros Hok. rewrite Hok in H10. vm_compute in H10. now destruct H10.
  - repeat split; try (intros; (reflexivity || lia || discriminate)).
    intros Hok. rewrite Hok in H10. vm_compute in H10. now destruct H10.
Qed.

Lemma content_length_check_witness :
  parse_string "content" content_checks "ok" = [too_short] /\
  exists rest, submissionSchema Scenario.form_ok = failure (too_short :: rest).
Proof.
  pose proof (content_length_check Scenario.form_ok) as (Hmin & _ & _ & _ & Hok).
  split.
  - apply Hmin. vm_compute. reflexivity.
  - apply Hok. reflexivity.
Defined.

(** The schema by itself: a value in the age field never makes it
    reject; it accepts or rejects on the text, the region and the
    agreement alone.  In the data of a successful parse an absent or
    empty age is undefined and any other is [parseInt] of the string,
    with no range or integrality check (the bounds 18 and 120 are
    attributes of the input element only); text, region and occupation
    are passed on unmodified, also into the request body. *)
Theorem schema_ignores_age (v : FormValues) (a : option string) :
  accepted (submissionSchema (with_age a v)) = accepted (submissionSchema v) /\
  (forall data, submissionSchema v = success data ->
     content data = raw_content v /\
     region data = raw_region v /\
     occupation data = raw_occupation v /\
     age data = age_transform (raw_age v) /\
     handleSubmit v = inr {| body_content := raw_content v;
                             body_region := raw_region v;
                             body_age := age_transform (raw_age v);
                             body_occupation := raw_occupation v;
                             body_language := "en" |}) /\
  age_transform None = None /\
  age_transform (Some "") = None /\
  (forall s, s <> "" -> age_transform (Some s) = Some (parseInt s)).
Proof.
  split; [|split; [|split; [|split]]]; try reflexivity.
  - unfold submissionSchema.
    change (schema_issues (with_age a v)) with (schema_issues v).
    destruct (schema_issues v); reflexivity.
  - intros data Hd. unfold handleSubmit. rewrite Hd.
    unfold submissionSchema in Hd.
    destruct (schema_issues v); [|discriminate].
    injection Hd as <-. simpl. repeat split; reflexivity.
  - intros [|c s] Hs; [now destruct Hs|reflexivity].
Qed.

Lemma schema_ignores_age_witness :
  exists data, submissionSchema (Scenario.form_age "34") = success data /\
               age data = Some (Int 34) /\ occupation data = Some "Teacher".
Proof.
  pose proof (schema_ignores_age (Scenario.form_age "34") None) as (_ & H & _).
  destruct (H {| content := "Declare all assets every year";
                 region := "Ashanti"; age := Some (Int 34);
                 occupation := Some "Teacher"; agree_terms := true |})
    as (_ & _ & Hocc & Hage & _); [vm_compute; reflexivity|].
  eexists. split; [vm_compute; reflexivity|].
  split; [exact Hage|exact Hocc].
Defined.

(** Handed to the schema directly, form values whose age is 200, is not
    a number or is fractional are accepted. *)
Lemma age_out_of_range_accepted :
  (exists data, submissionSchema (Scenario.form_age "200") = success data
                /\ age data = Some (Int 200)
                /\ ~ (age_input_min <= 200 <= age_input_max)) /\
  (exists data, submissionSchema (Scenario.form_age "abc") = success data
                /\ age data = Some NaN) /\
  (exists data, submissionSchema (Scenario.form_age "12.7") = success data
                /\ age data = Some (Int 12)).
Proof.
  repeat split; eexists; (split; [vm_compute; reflexivity|]);
    repeat split; try reflexivity.
  unfold age_input_min, age_input_max. lia.
Qed.

End SubmissionSchema.

(** ** The form in the browser *)

Section FormInBrowser.

Import Submit.

(** C5: the page accepts a submission whose age is neither passed
    through as supplied nor within the range.  The text [1e2] in the age
    field is a valid number, 100, within the field's bounds 18 and 120,
    so the browser lets the form through; the schema reads the text with
    [parseInt] and has no range check of its own, and the request
    carries the age 1.  In the same way [1200e-1], which is 120, is sent
    as the age 1200. *)
Theorem age_exponent_misread :
  (exists q, Form.decimal "1e2" = Some q /\ (q == 100)%Q) /\
  Form.number_input_valid age_input_min age_input_max "1e2" = true /\
  Form.submit (Scenario.form_age "1e2")
  = Form.posted {| body_content := "Declare all assets every year";
                   body_region := "Ashanti";
                   body_age := Some (Int 1);
                   body_occupation := Some "Teacher";
                   body_language := "en" |} /\
  ~ (age_input_min <= 1 <= age_input_max) /\
  (exists q, Form.decimal "1200e-1" = Some q /\ (q == 120)%Q) /\
  Form.submit (Scenario.form_age "1200e-1")
  = Form.posted {| body_content := "Declare all assets every year";
                   body_region := "Ashanti";
                   body_age := Some (Int 1200);
                   body_occupation := Some "Teacher";
                   body_language := "en" |} /\
  ~ (age_input_min <= 1200 <= age_input_max).
Proof.
  split; [eexists; split; [vm_compute; reflexivity|reflexivity]|].
  split; [vm_compute; reflexivity|]. split; [vm_compute; reflexivity|].
  split; [unfold age_input_min, age_input_max; lia|].
  split; [eexists; split; [vm_compute; reflexivity|reflexivity]|].
  split; [vm_compute; reflexivity|].
  unfold age_input_min, age_input_max; lia.
Qed.

End FormInBrowser.

(** ** Votes and the approval rate *)

Section ApprovalRate.

Import Bill.

Lemma clamp_bounds (x : Q) : (0 <= clamp x /\ clamp x <= 100)%Q.
Proof.
  unfold clamp, Math_max, Math_min. split.
  - apply Q.le_max_l.
  - apply Q.max_lub; [discriminate|apply Q.le_min_l].
Qed.


Lemma updateClause_hit (clauseId : Z) (voteType : VoteType) (c : BillClause) :
  id c = clauseId ->
  approval_rate (updateClause clauseId voteType c)
  = clamp (approval_rate c + adjustment voteType)%Q.
Proof.
  intros Hid. unfold updateClause. destruct (decide (id c = clauseId)) as [_|Hne].
  - reflexivity.
  - now destruct Hne.
Qed.

Lemma updateClause_miss (clauseId : Z) (voteType : VoteType) (c : BillClause) :
  id c <> clauseId -> updateClause clauseId voteType c = c.
Proof.
  intros Hid. unfold updateClause. destruct (decide (id c = clauseId)) as [He|_].
  - now destruct Hid.
  - reflexivity.
Qed.

Lemma updateClause_id (clauseId : Z) (voteType : VoteType) (c : BillClause) :
  id (updateClause clauseId voteType c) = id c.
Proof. unfold updateClause. destruct (decide (id c = clauseId)); reflexivity. Qed.

Lemma updateClause_in_range (clauseId : Z) (voteType : VoteType) (c : BillClause) :
  in_range c -> in_range (updateClause clauseId voteType c).
Proof.
  intros Hc. destruct (decide (id c = clauseId)) as [He|Hne].
  - unfold in_range. rewrite updateClause_hit by exact He. apply clamp_bounds.
  - rewrite updateClause_miss by exact Hne. exact Hc.
Qed.

Lemma handleVote_clauses (resolved : bool) (clauseId : Z) (voteType : VoteType)
  (p : Page) :
  clauses (handleVote resolved clauseId voteType p) =
    if decide (clauseId ∈ votedClauses p) then clauses p
    else if resolved then updateClause clauseId voteType <$> clauses p
    else clauses p.
Proof.
  unfold handleVote. destruct (decide (clauseId ∈ votedClauses p)); [reflexivity|].
  destruct resolved; reflexivity.
Qed.

Lemma handleVote_in_range (resolved : bool) (clauseId : Z) (voteType : VoteType)
  (p : Page) :
  Forall in_range (clauses p) ->
  Forall in_range (clauses (handleVote resolved clauseId voteType p)).
Proof.
  intros Hp. rewrite handleVote_clauses.
  destruct (decide (clauseId ∈ votedClauses p)); [exact Hp|].
  destruct resolved; [|exact Hp].
  apply Forall_fmap. eapply Forall_impl; [exact Hp|].
  intros c Hc. apply updateClause_in_range. exact Hc.
Qed.

Lemma applyVotes_snoc (votes : list VoteType) (v : VoteType) (c : BillClause) :
  applyVotes (votes ++ [v]) c
  = updateClause (id (applyVotes votes c)) v (applyVotes votes c).
Proof. unfold applyVotes. rewrite foldl_app. reflexivity. Qed.

(** C1: the update of a clause by one vote leaves its approval rate in
    [0, 100] whatever it was before; hence after any non-empty sequence
    of votes applied to a clause the rate is in [0, 100], a rate that
    starts in [0, 100] is there after every sequence of votes, and every
    sequence of clicks on the page keeps all clauses in the range. *)
Theorem approval_rate_bounded :
  (forall voteType c, in_range (updateClause (id c) voteType c)) /\
  (forall votes c, votes <> [] \/ in_range c -> in_range (applyVotes votes c)) /\
  (forall cs p, Forall in_range (clauses p) ->
                Forall in_range (clauses (clicks cs p))).
Proof.
  assert (Hone : forall voteType c, in_range (updateClause (id c) voteType c)).
  { intros voteType c. unfold in_range.
    rewrite updateClause_hit by reflexivity. apply clamp_bounds. }
  split; [exact Hone|split].
  - intros votes. induction votes as [|v votes IH] using rev_ind; intros c H.
    + destruct H as [H|H]; [now destruct H|exact H].
    + rewrite applyVotes_snoc. apply Hone.
  - intros cs. induction cs as [|c cs IH] using rev_ind; intros p Hp.
    + exact Hp.
    + unfold clicks. rewrite foldl_app. simpl. unfold click at 1.
      apply handleVote_in_range. apply IH. exact Hp.
Qed.

Lemma approval_rate_bounded_witness :
  Forall in_range
    (clauses (clicks [Scenario.approve_click 1; Scenario.approve_click 1]
                Scenario.page50)).
Proof.
  apply (proj2 (proj2 approval_rate_bounded)).
  repeat constructor; discriminate.
Defined.




End ApprovalRate.

(** ** Votes in flight *)

Section VotesInFlight.

Import Bill Visit.

Lemma run_snoc (es : list Event) (e : Event) (s : State) :
  run (es ++ [e]) s = step (run es s) e.
Proof. unfold run. rewrite foldl_app. reflexivity. Qed.


Lemma called_snoc (es : list Event) (e : Event) :
  called (es ++ [e]) =
    called es ++ match e with
                  | Vote clauseId voteType => [(clauseId, voteType)]
                  | Settle _ _ => []
                  end.
Proof.
  unfold called. rewrite omap_app. f_equal. destruct e; reflexivity.
Qed.

(** [Bill.handleVote] is the call whose reply arrives before anything
    else happens, a 401 apart. *)
Lemma handleVote_uninterrupted (clauseId : Z) (voteType : VoteType) (p : Page) :
  page (run [Vote clauseId voteType; Settle 0 resolved] (start p))
  = handleVote true clauseId voteType p /\
  (forall status, status <> Some 401 ->
     page (run [Vote clauseId voteType; Settle 0 (rejected status)] (start p))
     = handleVote false clauseId voteType p).
Proof.
  split; [|intros status Hs]; unfold run, handleVote; simpl; unfold call;
    simpl; destruct (decide (clauseId ∈ votedClauses p)); try reflexivity.
  unfold settle. simpl. unfold Auth.onResponseError.
  destruct (decide (status = Some 401)); [contradiction|reflexivity].
Qed.

Lemma snapshot_update (base : gset Z) (votes : list (Z * VoteType))
  (loaded cs : list BillClause) (voted : gset Z) (i : Z) (v : VoteType) :
  snapshot base votes loaded cs voted ->
  i ∉ voted -> (i, v) ∈ votes ->
  snapshot base votes loaded (updateClause i v <$> cs) (voted ∪ {[i]}).
Proof.
  intros [Hb Hs] Hi Hv. split; [apply union_subseteq_l', Hb|].
  apply Forall2_fmap_r. eapply Forall2_impl; [exact Hs|].
  intros c c' [->|(Hin & Hnb & w & Hw & ->)].
  - destruct (decide (id c = i)) as [He|Hne].
    + right. split; [apply elem_of_union_r, elem_of_singleton, He|].
      split; [intros Hbase; apply Hi, Hb; rewrite <- He; exact Hbase|].
      exists v. rewrite He. split; [exact Hv|reflexivity].
    + left. apply updateClause_miss, Hne.
  - right. split; [apply elem_of_union_l, Hin|]. split; [exact Hnb|].
    exists w. split; [exact Hw|].
    apply updateClause_miss. rewrite updateClause_id.
    intros He. apply Hi. rewrite <- He. exact Hin.
Qed.

Lemma step_consistent (base : gset Z) (votes : list (Z * VoteType))
  (loaded : list BillClause) (s : State) (e : Event) :
  consistent base votes loaded s ->
  (forall i v, e = Vote i v -> (i, v) ∈ votes) ->
  consistent base votes loaded (step s e).
Proof.
  intros [Hp Hh] He. destruct e as [i v|k reply]; simpl.
  - unfold call. destruct (decide (i ∈ votedClauses (page s))) as [Hin|Hn].
    + split; [exact Hp|exact Hh].
    + split; [exact Hp|]. simpl. apply Forall_app. split; [exact Hh|].
      constructor; [|constructor]. simpl. split; [exact Hp|].
      split; [exact Hn|]. apply He. reflexivity.
  - unfold settle. destruct (pending s !! k) as [h|] eqn:Hk; [|split; assumption].
    assert (Hkh : snapshot base votes loaded (seen_clauses h) (seen_voted h) /\
                  (handler_clause h ∉ seen_voted h) /\
                  (handler_clause h, handler_vote h) ∈ votes).
    { rewrite Forall_lookup in Hh. exact (Hh k h Hk). }
    destruct Hkh as (Hs & Hn & Hv).
    split; simpl.
    + destruct reply as [|status]; simpl; [|exact Hp].
      apply snapshot_update; assumption.
    + apply Forall_delete, Hh.
Qed.

Lemma run_consistent (base : gset Z) (votes : list (Z * VoteType))
  (loaded : list BillClause) (es : list Event) (s : State) :
  consistent base votes loaded s ->
  called es ⊆ votes ->
  consistent base votes loaded (run es s).
Proof.
  induction es as [|e es IH] using rev_ind; intros Hs Hv; [exact Hs|].
  rewrite run_snoc. rewrite called_snoc in Hv.
  apply step_consistent.
  - apply IH; [exact Hs|]. intros x Hx. apply Hv, elem_of_app. now left.
  - intros i v ->. apply Hv, elem_of_app. right. apply list_elem_of_singleton.
    reflexivity.
Qed.

Lemma start_consistent (votes : list (Z * VoteType)) (p : Page) :
  consistent (votedClauses p) votes (clauses p) (start p).
Proof.
  split; simpl; [|constructor]. split; [reflexivity|].
  apply Forall_Forall2_diag, Forall_forall. intros c _. now left.
Qed.










End VotesInFlight.

(** ** The one-vote guard *)

Section VoteGuard.

Import Bill Visit.


Lemma call_passes (clauseId : Z) (voteType : VoteType) (s : State) :
  clauseId ∉ votedClauses (page s) ->
  call clauseId voteType s
  = {| page := send (Api.submitVote (localStorage (page s)) clauseId
                       (vote_string voteType) None) (page s);
       pending := pending s ++ [ {| seen_clauses := clauses (page s);
                                    seen_voted := votedClauses (page s);
                                    handler_clause := clauseId;
                                    handler_vote := voteType |} ] |}.
Proof.
  intros Hn. unfold call.
  destruct (decide (clauseId ∈ votedClauses (page s))); [contradiction|reflexivity].
Qed.

Lemma settle_last (h : Handler) (reply : Reply) (p : Page) (hs : list Handler) :
  settle (length hs) reply {| page := p; pending := hs ++ [h] |}
  = {| page := resume h reply p; pending := hs |}.
Proof.
  unfold settle. simpl.
  rewrite lookup_app_r, Nat.sub_diag by lia. simpl. f_equal.
  rewrite delete_middle. apply app_nil_r.
Qed.



End VoteGuard.

(** ** The average approval *)

Section AverageApproval.

Import Bill.




End AverageApproval.

(** ** The average approval in double precision *)

Section AverageInDoubles.





End AverageInDoubles.

(** ** Statistics by region *)

Section RegionStatistics.

Import Stats.

Lemma GHANA_REGIONS_NoDup : NoDup Submit.GHANA_REGIONS.
Proof. apply (bool_decide_unpack _). vm_compute. reflexivity. Qed.

Lemma by_region_keys (subs : list Submission) :
  ((fun r => (r, count_region r subs)) <$> Submit.GHANA_REGIONS).*1
  = Submit.GHANA_REGIONS.
Proof. rewrite <- list_fmap_compose. apply list_fmap_id. Qed.

Lemma by_region_lookup (subs : list Submission) (r : string) :
  r ∈ Submit.GHANA_REGIONS ->
  by_region subs !! r = Some (count_region r subs).
Proof.
  intros Hr. unfold by_region. apply elem_of_list_to_map.
  - rewrite by_region_keys. apply GHANA_REGIONS_NoDup.
  - apply list_elem_of_fmap. exists r. split; [reflexivity|exact Hr].
Qed.

Lemma by_region_dom (subs : list Submission) :
  dom (by_region subs) = list_to_set Submit.GHANA_REGIONS.
Proof. unfold by_region. rewrite dom_list_to_map_L, by_region_keys. reflexivity. Qed.

Lemma count_region_fmap (r : string) (subs : list Submission) :
  count_region r subs = length (filter (fun x => x = r) (sub_region <$> subs)).
Proof.
  unfold count_region. induction subs as [|s subs IH]; [reflexivity|].
  rewrite fmap_cons, !filter_cons.
  destruct (decide (sub_region s = r)); simpl; rewrite IH; reflexivity.
Qed.

Lemma count_region_pos (r : string) (subs : list Submission) :
  (0 < count_region r subs)%nat <-> r ∈ (sub_region <$> subs).
Proof.
  rewrite count_region_fmap.
  induction (sub_region <$> subs) as [|x l IH]; simpl.
  - split; [lia|intros H; inversion H].
  - rewrite filter_cons, elem_of_cons. destruct (decide (x = r)) as [->|Hne]; simpl.
    + split; [now left|lia].
    + rewrite IH. split; [now right|]. intros [->|H]; [now destruct Hne|exact H].
Qed.

Lemma once_in_GHANA_REGIONS (r : string) :
  r ∈ Submit.GHANA_REGIONS ->
  length (filter (fun x => x = r) Submit.GHANA_REGIONS) = 1%nat.
Proof.
  unfold Submit.GHANA_REGIONS. intros Hr.
  repeat (apply elem_of_cons in Hr as [->|Hr]; [vm_compute; reflexivity|]).
  inversion Hr.
Qed.

(** C6: whatever the state, [submissions_by_region] has exactly the 16
    fixed regions as keys, each mapped to the number of submissions of
    that region (0 when there is none), and [regions_represented] is the
    number of distinct regions with at least one submission; with one
    submission for each of the 16 regions, [regions_represented] is 16
    and every region is mapped to 1. *)
Theorem stats_by_region (st : State) :
  let out := stats st in
  let subs := submissions st in
  length Submit.GHANA_REGIONS = 16%nat /\
  NoDup Submit.GHANA_REGIONS /\
  dom (submissions_by_region out) = list_to_set Submit.GHANA_REGIONS /\
  size (submissions_by_region out) = 16%nat /\
  (forall r, r ∈ Submit.GHANA_REGIONS ->
     submissions_by_region out !! r = Some (count_region r subs) /\
     (r ∉ (sub_region <$> subs) -> submissions_by_region out !! r = Some 0%nat)) /\
  (forall r, r ∈ distinct_regions subs <-> (0 < count_region r subs)%nat) /\
  regions_represented out = size (distinct_regions subs) /\
  (sub_region <$> subs ≡ₚ Submit.GHANA_REGIONS ->
     regions_represented out = 16%nat /\
     forall r, r ∈ Submit.GHANA_REGIONS ->
               submissions_by_region out !! r = Some 1%nat).
Proof.
  intros out subs. subst out. simpl. fold subs.
  split; [reflexivity|]. split; [apply GHANA_REGIONS_NoDup|].
  split; [apply by_region_dom|]. split; [|split; [|split; [|split]]].
  - rewrite <- size_dom, by_region_dom, size_list_to_set
      by apply GHANA_REGIONS_NoDup.
    reflexivity.
  - intros r Hr. split; [apply by_region_lookup, Hr|].
    intros Hnot. rewrite by_region_lookup by exact Hr. f_equal.
    destruct (count_region r subs) eqn:Hc; [reflexivity|].
    destruct Hnot. apply count_region_pos. lia.
  - intros r. unfold distinct_regions.
    rewrite elem_of_list_to_set, count_region_pos. reflexivity.
  - reflexivity.
  - intros Hperm. split.
    + unfold distinct_regions. rewrite Hperm.
      rewrite size_list_to_set by apply GHANA_REGIONS_NoDup. reflexivity.
    + intros r Hr. rewrite by_region_lookup by exact Hr. f_equal.
      rewrite count_region_fmap, Hperm. apply once_in_GHANA_REGIONS, Hr.
Qed.

Lemma stats_by_region_witness :
  regions_represented (stats Census.state) = 16%nat /\
  submissions_by_region (stats Census.state) !! "Oti" = Some 1%nat.
Proof.
  pose proof (stats_by_region Census.state) as (_ & _ & _ & _ & _ & _ & _ & H).
  destruct H as [H16 H1]; [vm_compute; reflexivity|].
  split; [exact H16|]. apply H1.
  apply (bool_decide_unpack _). vm_compute. reflexivity.
Defined.

End RegionStatistics.

(** ** The toast queue *)

Section ToastQueue.

Import Toast.

Lemma remove_frame (i : string) (s : Store) :
  toastId (remove i s) = toastId s /\ timers (remove i s) = timers s /\
  now (remove i s) = now s.
Proof. unfold remove. destruct (findIndex i (toasts s)); repeat split. Qed.

(** [remove] takes out the first toast with the given id, if any. *)
Lemma remove_ids (i : string) (s : Store) :
  ((i ∉ ids s) /\ remove i s = s) \/
  (exists l1 l2, ids s = l1 ++ i :: l2 /\ (i ∉ l1) /\ ids (remove i s) = l1 ++ l2).
Proof.
  unfold remove, findIndex, ids.
  destruct (list_find (fun t => id t = i) (toasts s)) as [[index t]|] eqn:Hf; simpl.
  - right. apply list_find_Some in Hf as (Hl & Hid & Hfirst).
    exists (id <$> take index (toasts s)), (id <$> drop (S index) (toasts s)).
    split; [|split].
    + rewrite <- (take_drop_middle _ _ _ Hl) at 1.
      rewrite fmap_app, fmap_cons, Hid. reflexivity.
    + intros Hin. apply list_elem_of_fmap in Hin as (t' & Ht' & Hin).
      apply list_elem_of_lookup in Hin as (j & Hj).
      assert (Hlt : (j < index)%nat).
      { apply lookup_lt_Some in Hj. rewrite length_take in Hj. lia. }
      rewrite lookup_take_lt in Hj by exact Hlt.
      apply (Hfirst j t' Hj Hlt). symmetry. exact Ht'.
    + rewrite delete_take_drop, fmap_app. reflexivity.
  - left. split; [|reflexivity].
    apply list_find_None in Hf. intros Hin.
    apply list_elem_of_fmap in Hin as (t & Ht & Hin).
    rewrite Forall_forall in Hf. apply (Hf t Hin). symmetry. exact Ht.
Qed.

Lemma remove_NoDup (i : string) (s : Store) :
  NoDup (ids s) -> NoDup (ids (remove i s)).
Proof.
  intros Hnd. destruct (remove_ids i s) as [[_ ->]|(l1 & l2 & Hs & _ & ->)].
  - exact Hnd.
  - rewrite Hs in Hnd. apply NoDup_app in Hnd as (H1 & H12 & H2).
    apply NoDup_cons in H2 as [_ H2]. apply NoDup_app. split; [exact H1|].
    split; [|exact H2]. intros x Hx Hx2. apply (H12 x Hx). now right.
Qed.

Lemma remove_elem (i j : string) (s : Store) :
  NoDup (ids s) -> (j ∈ ids (remove i s) <-> j ∈ ids s /\ j <> i).
Proof.
  intros Hnd. destruct (remove_ids i s) as [[Hn ->]|(l1 & l2 & Hs & Hn1 & ->)].
  - split; [|now intros [H _]].
    intros Hj. split; [exact Hj|]. intros ->. contradiction.
  - rewrite Hs in Hnd |- *. apply NoDup_app in Hnd as (_ & H12 & H2).
    apply NoDup_cons in H2 as [Hn2 _].
    rewrite !elem_of_app, elem_of_cons. split.
    + intros [Hj|Hj]; (split; [tauto|]); intros ->; contradiction.
    + intros [[Hj|[Hj|Hj]] Hne]; tauto.
Qed.

Lemma remove_sub (i j : string) (s : Store) :
  j ∈ ids (remove i s) -> j ∈ ids s.
Proof.
  destruct (remove_ids i s) as [[_ ->]|(l1 & l2 & -> & _ & ->)]; [tauto|].
  rewrite !elem_of_app, elem_of_cons. tauto.
Qed.

(** Running the callbacks of a list of timers. *)
Lemma fires_frame (ready : list Timer) (s : Store) :
  toastId (foldl fire s ready) = toastId s /\
  timers (foldl fire s ready) = timers s /\
  now (foldl fire s ready) = now s.
Proof.
  revert s; induction ready as [|t ready IH]; intros s; simpl; [repeat split|].
  destruct (IH (fire s t)) as (-> & -> & ->). apply remove_frame.
Qed.

Lemma fires_elem (ready : list Timer) (s : Store) (j : string) :
  NoDup (ids s) ->
  NoDup (ids (foldl fire s ready)) /\
  (j ∈ ids (foldl fire s ready) <-> j ∈ ids s /\ j ∉ (target <$> ready)).
Proof.
  revert s; induction ready as [|t ready IH]; intros s Hnd; simpl.
  - split; [exact Hnd|]. split; [|tauto].
    intros Hj. split; [exact Hj|]. intros H; inversion H.
  - destruct (IH (fire s t)) as [Hnd' Hiff].
    { apply remove_NoDup, Hnd. }
    split; [exact Hnd'|]. rewrite Hiff. unfold fire.
    rewrite remove_elem by exact Hnd. rewrite elem_of_cons. tauto.
Qed.

Lemma drawn_mono (s s' : Store) (i : string) :
  (toastId s <= toastId s')%N -> drawn s i -> drawn s' i.
Proof. intros Hle (k & Hk & ->). exists k. split; [lia|reflexivity]. Qed.

Lemma wf_init : wf init.
Proof.
  unfold wf, ids. simpl. split; [constructor|].
  split; [|split]; intros x Hx; inversion Hx.
Qed.

Lemma wf_toast (p : Props) (s : Store) : wf s -> wf (toast p s).
Proof.
  intros (Hnd & Hids & Htm & Hhas). unfold wf, ids in *. simpl.
  assert (Hmono : (toastId s <= toastId (toast p s))%N) by (simpl; lia).
  rewrite fmap_app. simpl. split; [|split; [|split]].
  - apply NoDup_app. split; [exact Hnd|]. split; [|apply NoDup_singleton].
    intros x Hx Hx'. apply list_elem_of_singleton in Hx'. subst x.
    destruct (Hids _ Hx) as (k & Hk & Heq).
    apply (inj pretty) in Heq. lia.
  - intros i Hi. apply elem_of_app in Hi as [Hi|Hi].
    + apply (drawn_mono s); [exact Hmono|apply Hids, Hi].
    + apply list_elem_of_singleton in Hi. subst i.
      exists (toastId s). simpl. split; [lia|reflexivity].
  - intros t Ht. apply elem_of_app in Ht as [Ht|Ht].
    + destruct (Htm t Ht) as (Hd & Hlo & Hhi).
      split; [apply (drawn_mono s); [exact Hmono|exact Hd]|]. split; assumption.
    + apply list_elem_of_singleton in Ht. subst t. simpl.
      split; [exists (toastId s); simpl; split; [lia|reflexivity]|].
      unfold retention. lia.
  - intros i Hi. apply elem_of_app in Hi as [Hi|Hi].
    + destruct (Hhas i Hi) as (t & Ht & Htar). exists t.
      split; [apply elem_of_app; now left|exact Htar].
    + apply list_elem_of_singleton in Hi. subst i.
      eexists. split; [apply elem_of_app; right; apply list_elem_of_singleton;
                       reflexivity|reflexivity].
Qed.

Lemma wf_dismiss (i : string) (s : Store) : wf s -> wf (dismiss i s).
Proof.
  intros (Hnd & Hids & Htm & Hhas). unfold dismiss, wf.
  destruct (remove_frame i s) as (Hid & Ht & Hn).
  unfold drawn. rewrite Hid, Ht, Hn.
  split; [apply remove_NoDup, Hnd|]. split; [|split].
  - intros j Hj. apply Hids. eapply remove_sub, Hj.
  - exact Htm.
  - intros j Hj. apply Hhas. eapply remove_sub, Hj.
Qed.

Lemma advance_frame (dt : N) (s : Store) :
  toastId (advance dt s) = toastId s /\
  timers (advance dt s) = filter (fun t => is_due (now s + dt) t = false) (timers s) /\
  now (advance dt s) = (now s + dt)%N.
Proof.
  unfold advance.
  match goal with
  | |- context [foldl fire ?s0 ?ready] =>
      destruct (fires_frame ready s0) as (-> & -> & ->)
  end.
  repeat split.
Qed.

Lemma advance_elem (dt : N) (s : Store) (j : string) :
  NoDup (ids s) ->
  NoDup (ids (advance dt s)) /\
  (j ∈ ids (advance dt s) <->
   j ∈ ids s /\
   forall t, t ∈ timers s -> target t = j -> (now s + dt < due t)%N).
Proof.
  intros Hnd. unfold advance.
  destruct (fires_elem
              (filter (fun t => is_due (now s + dt) t = true) (timers s))
              {| toastId := toastId s; toasts := toasts s;
                 timers := filter (fun t => is_due (now s + dt) t = false) (timers s);
                 now := (now s + dt)%N; changes := changes s |} j Hnd)
    as [Hnd' Hiff].
  split; [exact Hnd'|]. rewrite Hiff.
  change (ids {| toastId := toastId s; toasts := toasts s;
                 timers := filter (fun t => is_due (now s + dt) t = false) (timers s);
                 now := (now s + dt)%N; changes := changes s |}) with (ids s).
  split; intros [Hj Hno]; (split; [exact Hj|]).
  - intros t Ht Htar.
    destruct (N.ltb_spec (now s + dt) (due t)) as [Hlt|Hle]; [exact Hlt|].
    destruct Hno. apply list_elem_of_fmap. exists t. split; [now symmetry|].
    apply list_elem_of_filter. split; [|exact Ht].
    unfold is_due. apply N.leb_le. exact Hle.
  - intros Hin. apply list_elem_of_fmap in Hin as (t & Htar & Hin).
    apply list_elem_of_filter in Hin as [Hdue Hin].
    unfold is_due in Hdue. apply N.leb_le in Hdue.
    specialize (Hno t Hin (eq_sym Htar)). lia.
Qed.

Lemma wf_advance (dt : N) (s : Store) : wf s -> wf (advance dt s).
Proof.
  intros (Hnd & Hids & Htm & Hhas). unfold wf.
  destruct (advance_frame dt s) as (Hid & Ht & Hn).
  unfold drawn. rewrite Hid, Ht, Hn.
  split; [apply (advance_elem dt s ""), Hnd|]. split; [|split].
  - intros j Hj. apply Hids. apply (advance_elem dt s j Hnd), Hj.
  - intros t Hin. apply list_elem_of_filter in Hin as [Hdue Hin].
    destruct (Htm t Hin) as (Hd & Hlo & Hhi). split; [exact Hd|].
    unfold is_due in Hdue. apply N.leb_gt in Hdue. lia.
  - intros j Hj. apply (advance_elem dt s j Hnd) in Hj as [Hj Hlate].
    destruct (Hhas j Hj) as (t & Hin & Htar). exists t. split; [|exact Htar].
    apply list_elem_of_filter. split; [|exact Hin].
    unfold is_due. apply N.leb_gt. apply Hlate; assumption.
Qed.

Create HintDb toast.
#[local] Hint Resolve wf_init wf_toast wf_dismiss wf_advance : toast.

Lemma wf_step (e : Event) (s : Store) : wf s -> wf (step s e).
Proof. destruct e; simpl; auto with toast. Qed.

#[local] Hint Resolve wf_step : toast.

Lemma wf_run (es : list Event) (s : Store) : wf s -> wf (run es s).
Proof.
  revert s; induction es as [|e es IH]; intros s Hs; simpl; auto with toast.
Qed.

#[local] Hint Resolve wf_run : toast.

Lemma tracked_step (D k : N) (e : Event) (s : Store) :
  tracked D k s -> tracked D k (step s e).
Proof.
  intros (Hwf & Hk & Hdue). split; [apply wf_step, Hwf|].
  destruct e as [p|i|dt]; simpl.
  - split; [lia|]. intros t Ht Htar. apply elem_of_app in Ht as [Ht|Ht].
    + apply Hdue; assumption.
    + apply list_elem_of_singleton in Ht. subst t. simpl in Htar.
      apply (inj pretty) in Htar. lia.
  - unfold dismiss. destruct (remove_frame i s) as (-> & -> & _).
    split; assumption.
  - destruct (advance_frame dt s) as (-> & -> & _). split; [exact Hk|].
    intros t Ht. apply list_elem_of_filter in Ht as [_ Ht]. apply Hdue, Ht.
Qed.

Lemma tracked_run (D k : N) (es : list Event) (s : Store) :
  tracked D k s -> tracked D k (run es s).
Proof.
  revert s; induction es as [|e es IH]; intros s Hs; [exact Hs|].
  simpl. apply IH, tracked_step, Hs.
Qed.

Lemma now_step (e : Event) (s : Store) : (now s <= now (step s e))%N.
Proof.
  destruct e as [p|i|dt]; simpl.
  - lia.
  - unfold dismiss. destruct (remove_frame i s) as (_ & _ & ->). lia.
  - destruct (advance_frame dt s) as (_ & _ & ->). lia.
Qed.

Lemma now_run (es : list Event) (s : Store) : (now s <= now (run es s))%N.
Proof.
  revert s; induction es as [|e es IH]; intros s; simpl; [lia|].
  pose proof (now_step e s). pose proof (IH (step s e)). lia.
Qed.

(** A tracked toast stays in the queue while its timer is not due and
    nobody dismisses it. *)
Lemma kept_until_due (D k : N) (es : list Event) (s : Store) :
  tracked D k s -> pretty k ∈ ids s -> Dismiss (pretty k) ∉ es ->
  (now (run es s) < D)%N -> pretty k ∈ ids (run es s).
Proof.
  revert s; induction es as [|e es IH]; intros s Htr Hin Hnd Hnow; [exact Hin|].
  simpl in *. apply not_elem_of_cons in Hnd as [Hne Hnd].
  apply IH; [apply tracked_step, Htr| |exact Hnd|exact Hnow].
  pose proof (now_run es (step s e)) as Hmono.
  destruct Htr as ((Hnodup & _) & _ & Hdue).
  destruct e as [p|i|dt]; simpl in *.
  - unfold ids. simpl. rewrite fmap_app. apply elem_of_app. now left.
  - unfold dismiss. apply remove_elem; [exact Hnodup|].
    split; [exact Hin|]. intros Heq. apply Hne. now rewrite Heq.
  - apply advance_elem; [exact Hnodup|]. split; [exact Hin|].
    intros t Ht Htar. rewrite (Hdue t Ht Htar).
    destruct (advance_frame dt s) as (_ & _ & Hn). rewrite Hn in Hmono. lia.
Qed.

(** C8: a toast added to the queue is in the queue at once; it is out of
    the queue as soon as the clock is 5000 ms past the moment it was
    added, whatever else happened in between; until then it stays unless
    it is dismissed.  At any time, every toast in the queue has a timer
    due in less than the retention delay, which is 5000 ms. *)
Theorem toast_retention (es es' : list Event) (p : Props) :
  let s := run es init in
  let i := pretty (toastId s) in
  let s1 := toast p s in
  let s2 := run es' s1 in
  retention = 5000%N /\
  i ∈ ids s1 /\
  ((now s1 + retention <= now s2)%N -> i ∉ ids s2) /\
  ((now s2 < now s1 + retention)%N -> Dismiss i ∉ es' -> i ∈ ids s2) /\
  (forall j, j ∈ ids s2 ->
     exists t, t ∈ timers s2 /\ target t = j /\
               (now s2 < due t)%N /\ (due t <= now s2 + retention)%N).
Proof.
  intros s i s1 s2.
  assert (Hwf : wf s) by (subst s; auto with toast).
  assert (Hin1 : i ∈ ids s1).
  { unfold ids, s1. simpl. rewrite fmap_app. apply elem_of_app. right.
    apply list_elem_of_singleton. reflexivity. }
  assert (Htr : tracked (now s1 + retention) (toastId s) s1).
  { split; [apply wf_toast, Hwf|]. split; [simpl; lia|].
    intros t Ht Htar. simpl in Ht. apply elem_of_app in Ht as [Ht|Ht].
    - destruct Hwf as (_ & _ & Htm & _).
      destruct (Htm t Ht) as ((k & Hk & Hpk) & _).
      rewrite Hpk in Htar. apply (inj pretty) in Htar. lia.
    - apply list_elem_of_singleton in Ht. subst t. reflexivity. }
  pose proof (tracked_run _ _ es' _ Htr) as (Hwf2 & _ & Hdue2).
  fold s2 in Hwf2, Hdue2.
  destruct Hwf2 as (_ & _ & Htm2 & Hhas2).
  split; [reflexivity|]. split; [exact Hin1|]. split; [|split].
  - intros Hlate Hin. destruct (Hhas2 i Hin) as (t & Ht & Htar).
    destruct (Htm2 t Ht) as (_ & Hlo & _).
    rewrite (Hdue2 t Ht Htar) in Hlo. lia.
  - intros Hearly Hnd. apply (kept_until_due (now s1 + retention));
      assumption.
  - intros j Hj. destruct (Hhas2 j Hj) as (t & Ht & Htar).
    destruct (Htm2 t Ht) as (_ & Hlo & Hhi). exists t. auto.
Qed.

Lemma toast_retention_witness :
  "1" ∈ ids (run [Wait 4999] (toast Scenario.note (run Scenario.busy init))) /\
  "1" ∉ ids (run [Wait 4999; Wait 1]
               (toast Scenario.note (run Scenario.busy init))).
Proof.
  split.
  - refine (proj1 (proj2 (proj2 (proj2
      (toast_retention Scenario.busy [Wait 4999] Scenario.note)))) _ _).
    + vm_compute. reflexivity.
    + intros H. apply list_elem_of_singleton in H. discriminate H.
  - refine (proj1 (proj2 (proj2
      (toast_retention Scenario.busy [Wait 4999; Wait 1] Scenario.note))) _).
    vm_compute. discriminate.
Defined.

End ToastQueue.

(** * Further properties of the sources *)

(** ** The schema as a whole, and [parseInt] on the age field *)

Section SchemaAcceptance.

Import Submit.

Lemma region_issues_cases (r : string) :
  parse_string "region" region_checks r =
    if decide (r = "") then [mkIssue too_small "region" "Please select your region"]
    else [].
Proof.
  unfold parse_string, region_checks. simpl flat_map.
  destruct r as [|c r]; simpl; [reflexivity|].
  unfold JS.len. simpl String.length.
  destruct (Z.ltb_spec (Z.of_nat (S (String.length r))) 1); [lia|reflexivity].
Qed.

(** The schema accepts a form exactly when its text has between 10 and
    5000 code units, a region is selected and the terms are agreed to;
    otherwise it fails with one issue for every field at fault, in the
    order content, region, agree_terms, and [onSubmit] is not reached. *)
Theorem schema_accepts_iff (v : FormValues) :
  (accepted (submissionSchema v) = true <->
   10 <= JS.len (raw_content v) <= 5000 /\
   raw_region v <> "" /\ raw_agree_terms v = true) /\
  (accepted (submissionSchema v) = false ->
   submissionSchema v = failure (schema_issues v) /\
   handleSubmit v = inl (schema_issues v) /\
   path <$> schema_issues v =
     (if (JS.len (raw_content v) <? 10) || (5000 <? JS.len (raw_content v))
      then ["content"] else [])
     ++ (if decide (raw_region v = "") then ["region"] else [])
     ++ (if raw_agree_terms v then [] else ["agree_terms"])).
Proof.
  assert (Hiss : schema_issues v =
     (if JS.len (raw_content v) <? 10 then [too_short]
      else if 5000 <? JS.len (raw_content v) then [too_long] else [])
     ++ (if decide (raw_region v = "")
         then [mkIssue too_small "region" "Please select your region"] else [])
     ++ (if raw_agree_terms v then []
         else [mkIssue custom "agree_terms" "You must agree to the terms"])).
  { unfold schema_issues. rewrite content_issues_cases, region_issues_cases.
    destruct (raw_agree_terms v); reflexivity. }
  split.
  - unfold submissionSchema. rewrite Hiss.
    destruct (Z.ltb_spec (JS.len (raw_content v)) 10),
      (Z.ltb_spec 5000 (JS.len (raw_content v))),
      (decide (raw_region v = "")), (raw_agree_terms v);
      simpl; split; intros Hyp; try discriminate Hyp;
      try (destruct Hyp as (? & ? & ?)); try lia; try congruence;
      repeat split; try lia; try congruence.
  - intros Hrej. unfold handleSubmit, submissionSchema in *.
    destruct (schema_issues v) as [|i l] eqn:Hl; [discriminate Hrej|].
    split; [reflexivity|]. split; [reflexivity|].
    rewrite Hiss.
    destruct (JS.len (raw_content v) <? 10), (5000 <? JS.len (raw_content v)),
      (decide (raw_region v = "")), (raw_agree_terms v); reflexivity.
Qed.

Lemma digit_of_char (d : N) :
  (d < 10)%N -> digit_value (pretty_N_char d) = Some (Z.of_N d).
Proof.
  intros Hd.
  assert (d = 0 \/ d = 1 \/ d = 2 \/ d = 3 \/ d = 4 \/ d = 5 \/ d = 6
          \/ d = 7 \/ d = 8 \/ d = 9)%N as Hc by lia.
  repeat (destruct Hc as [->|Hc]; [reflexivity|]). subst d. reflexivity.
Qed.

Lemma parse_digits_pretty (x : N) (s : string) (acc : option Z) :
  (0 < x)%N -> default 0 acc = 0 ->
  parse_digits 10 (pretty_N_go x s) acc = parse_digits 10 s (Some (Z.of_N x)).
Proof.
  revert s acc. induction (N.lt_wf_0 x) as [x _ IH]; intros s acc Hx Hacc.
  rewrite pretty_N_go_step by exact Hx.
  assert (Hd : (x `mod` 10 < 10)%N) by (apply N.mod_lt; discriminate).
  assert (Hdm : x = (10 * (x `div` 10) + x `mod` 10)%N)
    by (apply N.div_mod; discriminate).
  destruct (decide (x `div` 10 = 0)%N) as [H0|Hpos].
  - rewrite H0, pretty_N_go_0. simpl parse_digits.
    rewrite digit_of_char by exact Hd.
    destruct (Z.ltb_spec (Z.of_N (x `mod` 10)) 10) as [_|Hge]; [|lia].
    rewrite Hacc. f_equal. f_equal. lia.
  - rewrite (IH (x `div` 10)%N); [|apply N.div_lt; [exact Hx|reflexivity]
                                  |lia|exact Hacc].
    simpl parse_digits. rewrite digit_of_char by exact Hd.
    destruct (Z.ltb_spec (Z.of_N (x `mod` 10)) 10) as [_|Hge]; [|lia].
    simpl default. f_equal. f_equal. lia.
Qed.

(** The decimal numeral of a positive number starts with a digit from 1
    to 9. *)
Lemma pretty_head (x : N) (s : string) :
  (0 < x)%N ->
  exists d t, (1 <= d <= 9)%N /\ pretty_N_go x s = String (pretty_N_char d) t.
Proof.
  revert s. induction (N.lt_wf_0 x) as [x _ IH]; intros s Hx.
  rewrite pretty_N_go_step by exact Hx.
  destruct (decide (x `div` 10 = 0)%N) as [H0|Hpos].
  - rewrite H0, pretty_N_go_0. exists (x `mod` 10)%N, s. split; [|reflexivity].
    assert (x = (10 * (x `div` 10) + x `mod` 10)%N)
      by (apply N.div_mod; discriminate).
    assert ((x `mod` 10 < 10)%N) by (apply N.mod_lt; discriminate). lia.
  - apply IH; [apply N.div_lt; [exact Hx|reflexivity]|].
    apply N.neq_0_lt_0, Hpos.
Qed.

Lemma parseInt_digit_head (d : N) (t : string) :
  (1 <= d <= 9)%N ->
  let s := String (pretty_N_char d) t in
  parseInt s = match parse_digits 10 s None with
               | Some n => Int (1 * n) | None => NaN end /\
  parseInt (String "-" s) = match parse_digits 10 s None with
                            | Some n => Int (-1 * n) | None => NaN end.
Proof.
  intros Hd.
  assert (d = 1 \/ d = 2 \/ d = 3 \/ d = 4 \/ d = 5 \/ d = 6
          \/ d = 7 \/ d = 8 \/ d = 9)%N as Hc by lia.
  repeat (destruct Hc as [->|Hc]; [split; reflexivity|]).
  subst d. split; reflexivity.
Qed.

Lemma parseInt_pretty_pos (x : N) :
  (0 < x)%N ->
  parseInt (pretty_N_go x "") = Int (Z.of_N x) /\
  parseInt (String "-" (pretty_N_go x "")) = Int (- Z.of_N x).
Proof.
  intros Hx. destruct (pretty_head x "" Hx) as (d & t & Hd & Heq).
  pose proof (parse_digits_pretty x "" None Hx eq_refl) as Hp.
  simpl in Hp. rewrite Heq in Hp |- *.
  destruct (parseInt_digit_head d t Hd) as [-> ->]. rewrite Hp.
  split; f_equal; lia.
Qed.

Lemma numeral_in_field (z : Z) :
  0 <= z <= 999 ->
  Form.number_input_valid age_input_min age_input_max (pretty z)
  = bool_decide (age_input_min <= z <= age_input_max).
Proof.
  intros Hz.
  assert (Hall : forallb (fun z =>
              Bool.eqb (Form.number_input_valid age_input_min age_input_max
                          (pretty z))
                       (bool_decide (age_input_min <= z <= age_input_max)))
            (seqZ 0 1000) = true) by (vm_compute; reflexivity).
  rewrite forallb_forall in Hall. apply Bool.eqb_prop, Hall.
  apply list_elem_of_In, elem_of_seqZ. lia.
Qed.

(** An age typed as the decimal numeral of a whole number from 0 to 999
    reaches the request exactly when it is within the bounds of the age
    field, 18 to 120, and then as that number; outside the bounds the
    browser holds the form back and nothing is sent. *)
Theorem age_of_numeral (z : Z) (v : FormValues) :
  0 <= z <= 999 -> accepted (submissionSchema v) = true ->
  Form.submit (with_age (Some (pretty z)) v) =
    if bool_decide (age_input_min <= z <= age_input_max)
    then Form.posted {| body_content := raw_content v;
                        body_region := raw_region v;
                        body_age := Some (Int z);
                        body_occupation := raw_occupation v;
                        body_language := "en" |}
    else Form.held_back.
Proof.
  intros Hz Hacc. unfold Form.submit. simpl raw_age. simpl default.
  rewrite numeral_in_field by exact Hz.
  destruct (bool_decide_reflect (age_input_min <= z <= age_input_max))
    as [Hr|_]; [|reflexivity].
  unfold age_input_min in Hr.
  unfold handleSubmit, submissionSchema in *.
  change (schema_issues (with_age (Some (pretty z)) v)) with (schema_issues v).
  destruct (schema_issues v); [|discriminate Hacc]. simpl.
  destruct z as [|p|p]; try lia.
  assert (Hp : parseInt (pretty (Z.pos p)) = Int (Z.pos p)).
  { unfold pretty, pretty_Z, pretty, pretty_positive, pretty, pretty_N.
    destruct (decide (N.pos p = 0%N)); [discriminate|].
    apply (parseInt_pretty_pos (N.pos p)). reflexivity. }
  unfold age_transform. rewrite <- Hp.
  destruct (pretty (Z.pos p)) eqn:Hs; [|reflexivity].
  exfalso.
  unfold pretty, pretty_Z, pretty, pretty_positive, pretty, pretty_N in Hs.
  destruct (decide (N.pos p = 0%N)); [discriminate|].
  destruct (pretty_head (N.pos p) "" eq_refl) as (d & t & _ & Heq).
  rewrite Heq in Hs. discriminate Hs.
Qed.

Lemma age_of_numeral_witness :
  Form.submit (Scenario.form_age "34")
  = Form.posted {| body_content := "Declare all assets every year";
                   body_region := "Ashanti";
                   body_age := Some (Int 34);
                   body_occupation := Some "Teacher";
                   body_language := "en" |} /\
  Form.submit (Scenario.form_age "200") = Form.held_back.
Proof.
  split.
  - refine (age_of_numeral 34 (Scenario.form_age "") _ _); [lia|reflexivity].
  - refine (age_of_numeral 200 (Scenario.form_age "") _ _); [lia|reflexivity].
Defined.

End SchemaAcceptance.

(** ** The admin session *)

Section AdminSession.

Import Auth.

(** [isAuthenticated] and the request interceptor agree: a request
    carries an [Authorization] header exactly when [isAuthenticated] is
    true, and the header is then the stored token behind ["Bearer "]. *)
Theorem authenticated_iff_header (ls : Api.LocalStorage) :
  (isAuthenticated ls = true <-> is_Some (Api.interceptor ls)) /\
  (forall h, Api.interceptor ls = Some h ->
     exists token, ls !! "auth_token" = Some token /\ token <> "" /\
                   h = "Bearer " +:+ token) /\
  (forall clauseId vote region,
     Api.authorization (Api.submitVote ls clauseId vote region) = None <->
     isAuthenticated ls = false).
Proof.
  unfold isAuthenticated, Api.submitVote, Api.post, Api.interceptor. simpl.
  destruct (ls !! "auth_token") as [[|c token]|]; simpl.
  - split; [split; [discriminate|intros [? H]; discriminate H]|].
    split; [discriminate|]. intros _ _ _; split; reflexivity.
  - split; [split; [eauto|reflexivity]|].
    split; [|intros _ _ _; split; discriminate].
    intros h [= <-]. exists (String c token). repeat split. discriminate.
  - split; [split; [discriminate|intros [? H]; discriminate H]|].
    split; [discriminate|]. intros _ _ _; split; reflexivity.
Qed.

(** After [adminLogin] with a non-empty token the session is
    authenticated and every vote request carries that token; after
    [adminLogout] the token and the user are gone, nothing else in the
    storage has changed, and requests carry no header. *)
Theorem login_then_logout (data : LoginData) (ls : Api.LocalStorage) :
  access_token data <> "" ->
  let ls1 := adminLogin data ls in
  let ls2 := fst (adminLogout ls1) in
  isAuthenticated ls1 = true /\
  ls1 !! "user" = Some (user data) /\
  Api.interceptor ls1 = Some ("Bearer " +:+ access_token data) /\
  isAuthenticated ls2 = false /\ Api.interceptor ls2 = None /\
  ls2 !! "user" = None /\
  (forall k, k <> "auth_token" -> k <> "user" -> ls2 !! k = ls !! k) /\
  snd (adminLogout ls1) = "/admin/login".
Proof.
  intros Htok ls1 ls2. subst ls1 ls2. unfold adminLogin, adminLogout, fst, snd.
  unfold isAuthenticated, Api.interceptor.
  rewrite lookup_insert_ne by discriminate.
  rewrite !lookup_insert_eq.
  rewrite (lookup_delete_ne _ "user" "auth_token") by discriminate.
  rewrite !lookup_delete_eq.
  destruct (access_token data) as [|c t] eqn:Ht; [now destruct Htok|].
  repeat split.
  intros k Hk1 Hk2.
  rewrite !lookup_delete_ne, !lookup_insert_ne by congruence. reflexivity.
Qed.

Lemma login_then_logout_witness :
  isAuthenticated (adminLogin (mkLoginData "tok" "{}") ∅) = true /\
  isAuthenticated (fst (adminLogout (adminLogin (mkLoginData "tok" "{}") ∅)))
  = false.
Proof.
  assert (Hne : access_token (mkLoginData "tok" "{}") <> "") by discriminate.
  pose proof (login_then_logout (mkLoginData "tok" "{}") ∅ Hne)
    as (H1 & _ & _ & H2 & _).
  split; [exact H1|exact H2].
Defined.

Lemma startsWith_spec (p s : string) :
  startsWith p s = true <-> exists rest, s = p +:+ rest.
Proof.
  unfold startsWith. revert s; induction p as [|a p IH]; intros [|b s]; simpl.
  - split; [intros _; exists ""; reflexivity|reflexivity].
  - split; [intros _; exists (String b s); reflexivity|reflexivity].
  - split; [discriminate|intros [rest H]; discriminate H].
  - destruct (ascii_dec a b) as [->|Hne].
    + rewrite IH. split; intros [rest H]; exists rest.
      * change (String b s = String b (p +:+ rest)). now rewrite H.
      * change (String b s = String b (p +:+ rest)) in H. now injection H.
    + split; [discriminate|]. intros [rest H].
      change (String b s = String a (p +:+ rest)) in H.
      injection H as H1 _. now destruct Hne.
Qed.

(** A 401 answer ends the session but keeps the stored user: the token
    is removed, so the session is no longer authenticated and requests
    carry no header, while the ["user"] entry and every other key stay
    as they were; the browser is sent to the login page only from a path
    under [/admin].  Any other answer changes nothing. *)
Theorem unauthorized_response (status : option Z) (pathname : string)
  (ls : Api.LocalStorage) :
  let r := onResponseError status pathname ls in
  (status = Some 401 ->
     isAuthenticated (fst r) = false /\
     Api.interceptor (fst r) = None /\
     (forall k, k <> "auth_token" -> fst r !! k = ls !! k) /\
     fst r !! "user" = ls !! "user" /\
     (snd r = Some "/admin/login" <-> exists rest, pathname = "/admin" +:+ rest) /\
     (snd r = None \/ snd r = Some "/admin/login")) /\
  (status <> Some 401 -> r = (ls, None)).
Proof.
  intros r. subst r. unfold onResponseError. split.
  - intros ->. destruct (decide (Some 401 = Some 401)) as [_|Hn];
      [|now destruct Hn].
    unfold fst, snd, isAuthenticated, Api.interceptor.
    rewrite lookup_delete_eq.
    split; [reflexivity|]. split; [reflexivity|]. split.
    { intros k Hk. apply lookup_delete_ne. congruence. }
    split. { apply lookup_delete_ne. discriminate. }
    pose proof (startsWith_spec "/admin" pathname) as Hsw.
    destruct (startsWith "/admin" pathname).
    + split; [|now right]. split; [intros _; now apply Hsw|reflexivity].
    + split; [|now left]. split; [discriminate|].
      intros Hex. apply Hsw in Hex. discriminate Hex.
  - intros Hs. destruct (decide (status = Some 401)); [contradiction|reflexivity].
Qed.

Lemma unauthorized_response_witness :
  onResponseError (Some 401) "/admin/dashboard"
    (adminLogin (mkLoginData "tok" "{}") ∅)
  = ({["user" := "{}"]}, Some "/admin/login") /\
  onResponseError (Some 500) "/bill" ∅ = (∅, None).
Proof.
  split.
  - vm_compute. reflexivity.
  - apply (proj2 (unauthorized_response (Some 500) "/bill" ∅)). discriminate.
Defined.

End AdminSession.

(** ** One page session of voting *)

Section VotingSession.

Import Bill Visit.

(** Whatever votes are cast during one visit of the page, and in
    whatever order the replies arrive, a clause keeps its id and
    position and is either the clause that was loaded or that clause
    after one nudge by a vote cast on it, never after two; a clause
    already voted on
    when the visit starts is not changed at all, and a rate loaded in
    [0, 100] stays there. *)
Theorem one_nudge_per_visit (es : list Event) (p : Page) :
  Forall2 (fun c c' =>
             id c' = id c /\
             (c' = c \/
              exists v, (id c, v) ∈ called es /\
                        c' = updateClause (id c) v c) /\
             (id c ∈ votedClauses p -> c' = c) /\
             (in_range c -> in_range c'))
    (clauses p) (clauses (page (run es (start p)))).
Proof.
  destruct (run_consistent (votedClauses p) (called es) (clauses p) es (start p)
              (start_consistent (called es) p)) as [[_ Hs] _]; [reflexivity|].
  eapply Forall2_impl; [exact Hs|].
  intros c c' [->|(_ & Hnb & v & Hv & ->)].
  - split; [reflexivity|]. split; [now left|]. split; [reflexivity|auto].
  - split; [apply updateClause_id|]. split; [right; exists v; auto|].
    split; [intros Hb; contradiction|]. intros _.
    unfold in_range. rewrite updateClause_hit by reflexivity. apply clamp_bounds.
Qed.

Lemma resume_storage (h : Handler) (reply : Reply) (p : Page) (key : string) :
  (key <> "auth_token" ->
   localStorage (resume h reply p) !! key = localStorage p !! key) /\
  localStorage (resume h reply p) ⊆ localStorage p.
Proof.
  destruct reply as [|status]; simpl; [split; reflexivity|].
  unfold Auth.onResponseError. destruct (decide (status = Some 401)); simpl.
  - split; [intros Hk; apply lookup_delete_ne; congruence|apply delete_subseteq].
  - split; reflexivity.
Qed.

(** Every call of [handleVote] is answered by exactly one toast, at once
    when the guard stops it and otherwise when its reply is in; it leads
    to at most one request, and requests already sent stay in the log.  The stored
    session changes in one way only: a reply with status 401 removes
    [auth_token]. *)
Theorem visit_feedback (es : list Event) (s : State) :
  let s' := run es s in
  (length (shown (page s')) + length (pending s')
   = length (shown (page s)) + length (pending s) + length (called es))%nat /\
  sent (page s) `prefix_of` sent (page s') /\
  (length (sent (page s')) <= length (sent (page s)) + length (called es))%nat /\
  (forall key, key <> "auth_token" ->
     localStorage (page s') !! key = localStorage (page s) !! key) /\
  localStorage (page s') ⊆ localStorage (page s).
Proof.
  cbv zeta. induction es as [|e es IH] using rev_ind.
  - simpl. rewrite Nat.add_0_r. repeat split; try reflexivity. lia.
  - destruct IH as (Hn & Hpre & Hlen & Hkeys & Hsub).
    rewrite run_snoc, called_snoc, length_app.
    set (q := run es s) in *.
    destruct e as [i v|k reply]; simpl.
    + unfold call. destruct (decide (i ∈ votedClauses (page q))); simpl;
        rewrite ?length_app; simpl.
      * split; [lia|]. split; [exact Hpre|]. split; [lia|]. split; assumption.
      * split; [lia|].
        split; [etransitivity; [exact Hpre|apply prefix_app_r; reflexivity]|].
        split; [lia|]. split; assumption.
    + unfold settle. destruct (pending q !! k) as [h|] eqn:Hk; simpl.
      * assert (Hlt : (k < length (pending q))%nat)
          by (apply lookup_lt_is_Some; eauto).
        rewrite length_delete by eauto.
        assert (Hsh : length (shown (resume h reply (page q)))
                      = S (length (shown (page q))))
          by (destruct reply; simpl; rewrite length_app; simpl; lia).
        assert (Hse : sent (resume h reply (page q)) = sent (page q))
          by (destruct reply; reflexivity).
        rewrite Hsh, Hse. split; [lia|]. split; [exact Hpre|]. split; [lia|].
        split.
        -- intros key Hkey.
           rewrite (proj1 (resume_storage h reply (page q) key) Hkey).
           apply Hkeys, Hkey.
        -- etransitivity; [|exact Hsub].
           apply (resume_storage h reply (page q) "").
      * split; [lia|]. split; [exact Hpre|]. split; [lia|]. split; assumption.
Qed.

Lemma filter_update_other (i j : Z) (v : VoteType) (cs : list BillClause) :
  j <> i ->
  filter (fun c => id c = i) (updateClause j v <$> cs)
  = filter (fun c => id c = i) cs.
Proof.
  intros Hne. induction cs as [|c cs IH]; [reflexivity|].
  rewrite fmap_cons, !filter_cons, IH, updateClause_id.
  destruct (decide (id c = i)) as [He|_]; [|reflexivity].
  rewrite updateClause_miss by congruence. reflexivity.
Qed.

(** On a page with no request in flight, a clause that is marked as
    voted on stays so: whatever votes are cast afterwards and whatever the
    server answers, no further request is sent for it and its entry in
    the clause list is not changed. *)
Theorem quiet_vote_is_final (es : list Event) (clauseId : Z) (s : State) :
  pending s = [] -> clauseId ∈ votedClauses (page s) ->
  let s' := run es s in
  clauseId ∈ votedClauses (page s') /\
  filter (Wire.for_clause clauseId) (sent (page s'))
  = filter (Wire.for_clause clauseId) (sent (page s)) /\
  filter (fun c => id c = clauseId) (clauses (page s'))
  = filter (fun c => id c = clauseId) (clauses (page s)).
Proof.
  intros Hp Hin. cbv zeta.
  assert (H : (clauseId ∈ votedClauses (page (run es s)) /\
               filter (Wire.for_clause clauseId) (sent (page (run es s)))
               = filter (Wire.for_clause clauseId) (sent (page s)) /\
               filter (fun c => id c = clauseId) (clauses (page (run es s)))
               = filter (fun c => id c = clauseId) (clauses (page s))) /\
              Forall (fun h =>
                        clauseId ∈ seen_voted h /\ handler_clause h <> clauseId /\
                        filter (fun c => id c = clauseId) (seen_clauses h)
                        = filter (fun c => id c = clauseId) (clauses (page s)))
                     (pending (run es s))).
  { induction es as [|e es IH] using rev_ind.
    - simpl. rewrite Hp. split; [auto|constructor].
    - destruct IH as ((Hv & Hs & Hc) & Hh). rewrite run_snoc.
      set (q := run es s) in *. destruct e as [i v|k reply]; simpl.
      + unfold call. destruct (decide (i ∈ votedClauses (page q))) as [Hi|Hi];
          simpl; [split; [auto|exact Hh]|].
        assert (Hne : i <> clauseId) by (intros ->; contradiction).
        split.
        * split; [exact Hv|]. split; [|exact Hc].
          rewrite filter_app, filter_cons, filter_nil.
          destruct (decide (Wire.for_clause clauseId _)) as [Hf|_];
            [now destruct Hne|]. rewrite app_nil_r. exact Hs.
        * apply Forall_app. split; [exact Hh|]. constructor; [|constructor].
          simpl. auto.
      + unfold settle. destruct (pending q !! k) as [h|] eqn:Hk;
          [|split; [auto|exact Hh]].
        assert (Hkh : clauseId ∈ seen_voted h /\ handler_clause h <> clauseId /\
                      filter (fun c => id c = clauseId) (seen_clauses h)
                      = filter (fun c => id c = clauseId) (clauses (page s))).
        { rewrite Forall_lookup in Hh. exact (Hh k h Hk). }
        destruct Hkh as (Hsv & Hne & Hsc).
        split; [|apply Forall_delete, Hh]. simpl.
        destruct reply as [|status]; simpl; [|auto].
        split; [apply elem_of_union_l, Hsv|]. split; [exact Hs|].
        rewrite filter_update_other by exact Hne. exact Hsc. }
  exact (proj1 H).
Qed.

Lemma quiet_vote_is_final_witness :
  1 ∈ votedClauses (page Cases.after_recorded).
Proof.
  refine (proj1 (quiet_vote_is_final
                   [Vote 1 reject; Vote 2 approve; Settle 0 resolved] 1
                   (start Scenario.voted_page) _ _)).
  - reflexivity.
  - apply (bool_decide_unpack _). vm_compute. reflexivity.
Defined.

(** A vote whose request fails is not counted and can be repeated: the
    clauses, [votedClauses] and the calls in flight are as before, and
    the next vote on the clause sends a request with the same body and,
    once that resolves, is recorded.  The second request equals the
    first unless the failure was a 401: then the response interceptor
    has removed [auth_token] and the second request has no
    [Authorization] header. *)
Theorem failed_vote_can_be_repeated (s : State) (clauseId : Z)
  (voteType : VoteType) (status : option Z) :
  clauseId ∉ votedClauses (page s) ->
  let p := page s in
  let k := length (pending s) in
  let request :=
    Api.submitVote (localStorage p) clauseId (vote_string voteType) None in
  let s1 := settle k (rejected status) (call clauseId voteType s) in
  let request' :=
    Api.submitVote (localStorage (page s1)) clauseId (vote_string voteType) None in
  let s2 := settle k resolved (call clauseId voteType s1) in
  (clauses (page s1) = clauses p /\ votedClauses (page s1) = votedClauses p /\
   pending s1 = pending s /\ sent (page s1) = sent p ++ [request] /\
   shown (page s1) = shown p ++ [vote_failed] /\
   localStorage (page s1)
   = if decide (status = Some 401) then delete "auth_token" (localStorage p)
     else localStorage p) /\
  (sent (page s2) = sent p ++ [request; request'] /\
   Api.data request' = Api.data request /\
   (status <> Some 401 -> request' = request) /\
   (status = Some 401 -> Api.authorization request' = None) /\
   clauses (page s2) = (updateClause clauseId voteType <$> clauses p) /\
   clauseId ∈ votedClauses (page s2)).
Proof.
  intros Hn p k request s1 request' s2.
  assert (Hs1 : s1 = {| page := resume {| seen_clauses := clauses p;
                                          seen_voted := votedClauses p;
                                          handler_clause := clauseId;
                                          handler_vote := voteType |}
                                  (rejected status) (send request p);
                        pending := pending s |}).
  { subst s1 k. rewrite call_passes by exact Hn. apply settle_last. }
  assert (Hls : localStorage (page s1)
                = if decide (status = Some 401)
                  then delete "auth_token" (localStorage p) else localStorage p).
  { rewrite Hs1. simpl. unfold Auth.onResponseError.
    destruct (decide (status = Some 401)); reflexivity. }
  split.
  - rewrite Hs1 at 1 2 3 4 5. simpl. repeat split. exact Hls.
  - assert (Hn1 : clauseId ∉ votedClauses (page s1)) by (rewrite Hs1; exact Hn).
    assert (Hs2 : s2 = {| page := resume {| seen_clauses := clauses (page s1);
                                            seen_voted := votedClauses (page s1);
                                            handler_clause := clauseId;
                                            handler_vote := voteType |}
                                    resolved (send request' (page s1));
                          pending := pending s |}).
    { subst s2 k. rewrite call_passes by exact Hn1.
      replace (pending s1) with (pending s) by (rewrite Hs1; reflexivity).
      apply settle_last. }
    rewrite Hs2. simpl.
    replace (sent (page s1)) with (sent p ++ [request]) by (rewrite Hs1; reflexivity).
    replace (clauses (page s1)) with (clauses p) by (rewrite Hs1; reflexivity).
    split; [rewrite <- app_assoc; reflexivity|]. split; [reflexivity|].
    split; [|split; [|split]].
    + intros Hne. subst request'. rewrite Hls.
      destruct (decide (status = Some 401)); [contradiction|reflexivity].
    + intros He. subst request'. rewrite Hls.
      destruct (decide (status = Some 401)); [|contradiction].
      unfold Api.submitVote, Api.post, Api.interceptor. simpl.
      rewrite lookup_delete_eq. reflexivity.
    + reflexivity.
    + apply elem_of_union_r, elem_of_singleton. reflexivity.
Qed.

Lemma failed_vote_can_be_repeated_witness :
  clauses (page (settle 0 (rejected (Some 401))
                   (call 1 approve (start Scenario.page50))))
  = clauses Scenario.page50.
Proof.
  assert (Hn : 1 ∉ votedClauses (page (start Scenario.page50)))
    by (vm_compute; discriminate).
  exact (proj1 (proj1 (failed_vote_can_be_repeated
                         (start Scenario.page50) 1 approve (Some 401) Hn))).
Defined.

(** Votes on two clauses that overlap lose an update: when both are
    cast before either reply and both requests resolve, "Vote
    recorded" is shown twice, but the second reply writes the state its
    call read when it was made, so only the second clause is marked as voted
    on and nudged; the first is as it was loaded and can be voted on
    again. *)
Theorem overlapping_votes_lose_updates (s : State) (i j : Z) (v w : VoteType) :
  i <> j -> i ∉ votedClauses (page s) -> j ∉ votedClauses (page s) ->
  let p := page s in
  let k := length (pending s) in
  let s' := run [Vote i v; Vote j w; Settle k resolved; Settle k resolved] s in
  sent (page s')
  = sent p ++ [Api.submitVote (localStorage p) i (vote_string v) None;
               Api.submitVote (localStorage p) j (vote_string w) None] /\
  shown (page s') = shown p ++ [vote_recorded; vote_recorded] /\
  votedClauses (page s') = votedClauses p ∪ {[j]} /\
  (i ∉ votedClauses (page s')) /\
  clauses (page s') = (updateClause j w <$> clauses p) /\
  filter (fun c => id c = i) (clauses (page s'))
  = filter (fun c => id c = i) (clauses p).
Proof.
  intros Hij Hi Hj p k s'. subst s' k. unfold run. simpl.
  rewrite (call_passes i v s) by exact Hi.
  rewrite call_passes by exact Hj. simpl. rewrite <- app_assoc. simpl.
  match goal with
  | |- context [settle _ resolved (settle _ resolved ?s0)] =>
      assert (Hs : settle (length (pending s)) resolved s0 =
                {| page := resume {| seen_clauses := clauses (page s);
                                     seen_voted := votedClauses (page s);
                                     handler_clause := i;
                                     handler_vote := v |}
                             resolved (page s0);
                   pending := pending s ++
                     [ {| seen_clauses := clauses (page s);
                          seen_voted := votedClauses (page s);
                          handler_clause := j;
                          handler_vote := w |} ] |})
  end.
  { unfold settle. simpl.
    rewrite lookup_app_r, Nat.sub_diag by lia. simpl. f_equal.
    rewrite delete_middle. reflexivity. }
  rewrite Hs, settle_last. simpl. fold p.
  split; [rewrite <- app_assoc; reflexivity|].
  split; [rewrite <- app_assoc; reflexivity|].
  split; [reflexivity|].
  split; [|split; [reflexivity|apply filter_update_other; congruence]].
  intros Hin. apply elem_of_union in Hin as [Hin|Hin]; [contradiction|].
  apply elem_of_singleton in Hin. contradiction.
Qed.

Lemma overlapping_votes_lose_updates_witness :
  1 ∉ votedClauses (page Cases.two_overlapping).
Proof.
  refine (proj1 (proj2 (proj2 (proj2
            (overlapping_votes_lose_updates (start Cases.two_clauses) 1 2
               approve reject _ _ _))))).
  - discriminate.
  - vm_compute. discriminate.
  - vm_compute. discriminate.
Defined.






End VotingSession.

(** ** More on the toast queue *)

Section ToastQueueOrder.

Import Toast.

Lemma remove_toasts (i : string) (s : Store) :
  ((i ∉ ids s) /\ remove i s = s) \/
  (exists l1 t l2,
     toasts s = l1 ++ t :: l2 /\ id t = i /\ (i ∉ (id <$> l1)) /\
     toasts (remove i s) = l1 ++ l2 /\ changes (remove i s) = S (changes s)).
Proof.
  unfold remove, findIndex, ids.
  destruct (list_find (fun t => id t = i) (toasts s)) as [[index t]|] eqn:Hf; simpl.
  - right. apply list_find_Some in Hf as (Hl & Hid & Hfirst).
    exists (take index (toasts s)), t, (drop (S index) (toasts s)).
    split; [symmetry; apply take_drop_middle, Hl|]. split; [exact Hid|].
    split; [|split; [apply delete_take_drop|reflexivity]].
    intros Hin. apply list_elem_of_fmap in Hin as (t' & Ht' & Hin).
    apply list_elem_of_lookup in Hin as (j & Hj).
    assert (Hlt : (j < index)%nat).
    { apply lookup_lt_Some in Hj. rewrite length_take in Hj. lia. }
    rewrite lookup_take_lt in Hj by exact Hlt.
    apply (Hfirst j t' Hj Hlt). symmetry. exact Ht'.
  - left. split; [|reflexivity].
    apply list_find_None in Hf. intros Hin.
    apply list_elem_of_fmap in Hin as (t & Ht & Hin).
    rewrite Forall_forall in Hf. apply (Hf t Hin). symmetry. exact Ht.
Qed.

Lemma remove_sublist (i : string) (s : Store) :
  ids (remove i s) `sublist_of` ids s.
Proof.
  destruct (remove_ids i s) as [[_ ->]|(l1 & l2 & -> & _ & ->)]; [reflexivity|].
  apply sublist_app; [reflexivity|]. apply sublist_cons, reflexivity.
Qed.

Lemma fires_sublist (ready : list Timer) (s : Store) :
  ids (foldl fire s ready) `sublist_of` ids s.
Proof.
  revert s; induction ready as [|t ready IH]; intros s; simpl; [reflexivity|].
  etransitivity; [apply IH|apply remove_sublist].
Qed.

Lemma step_order (e : Event) (s : Store) :
  ids s `sublist_of` (pretty <$> seq 0 (N.to_nat (toastId s))) ->
  ids (step s e) `sublist_of` (pretty <$> seq 0 (N.to_nat (toastId (step s e)))).
Proof.
  intros Hs. destruct e as [p|i|dt]; simpl.
  - unfold ids. simpl. rewrite fmap_app. simpl.
    replace (N.to_nat (toastId s + 1)) with (S (N.to_nat (toastId s))) by lia.
    rewrite seq_S, fmap_app. simpl. apply sublist_app; [exact Hs|].
    unfold pretty at 2, pretty_nat. rewrite N2Nat.id. reflexivity.
  - unfold dismiss. destruct (remove_frame i s) as (-> & _ & _).
    etransitivity; [apply remove_sublist|exact Hs].
  - destruct (advance_frame dt s) as (-> & _ & _).
    etransitivity; [|exact Hs]. unfold advance.
    match goal with
    | |- ids (foldl fire ?s0 ?ready) `sublist_of` _ =>
        apply (fires_sublist ready s0)
    end.
Qed.

(** Whatever happened before, the ids of the toasts in the queue are
    numerals of counter values below [toastId], in increasing order of
    the counter: the queue shows the toasts in the order they were
    raised, and no two of them share an id (the [key] of the rendered
    element). *)
Theorem queue_in_creation_order (es : list Event) :
  let s := run es init in
  ids s `sublist_of` (pretty <$> seq 0 (N.to_nat (toastId s))) /\
  NoDup (ids s) /\
  (N.of_nat (length (toasts s)) <= toastId s)%N.
Proof.
  intros s.
  assert (Hsub : ids s `sublist_of` (pretty <$> seq 0 (N.to_nat (toastId s)))).
  { subst s. induction es as [|e es IH] using rev_ind; [reflexivity|].
    unfold run. rewrite foldl_app. simpl. apply step_order, IH. }
  split; [exact Hsub|]. split.
  - refine (sublist_NoDup _ _ _ Hsub).
    apply (NoDup_fmap_2 pretty), NoDup_seq.
  - apply sublist_length in Hsub. unfold ids in Hsub.
    rewrite !length_fmap, length_seq in Hsub. lia.
Qed.

Lemma remove_count (i : string) (s : Store) :
  (changes (remove i s) + length (toasts (remove i s))
   = changes s + length (toasts s))%nat.
Proof.
  destruct (remove_toasts i s) as [[_ ->]|(l1 & t & l2 & -> & _ & _ & -> & ->)];
    [reflexivity|].
  rewrite !length_app. simpl. lia.
Qed.

Lemma fires_count (ready : list Timer) (s : Store) :
  (changes (foldl fire s ready) + length (toasts (foldl fire s ready))
   = changes s + length (toasts s))%nat.
Proof.
  revert s; induction ready as [|t ready IH]; intros s; simpl; [reflexivity|].
  rewrite IH. apply remove_count.
Qed.

(** The listeners are told of every change of the queue and of nothing
    else: [emitChange] has run once for every toast raised and once for
    every toast taken out, so a [dismiss] or a timer for a toast that is
    no longer there notifies nobody. *)
Theorem changes_account (es : list Event) :
  let s := run es init in
  (N.of_nat (changes s) + N.of_nat (length (toasts s)) = 2 * toastId s)%N /\
  (forall i, i ∉ ids s -> dismiss i s = s).
Proof.
  intros s. split.
  - subst s. induction es as [|e es IH] using rev_ind; [reflexivity|].
    unfold run. rewrite foldl_app. simpl. fold (run es init).
    set (s := run es init) in *. destruct e as [p|i|dt]; simpl.
    + rewrite length_app. simpl. lia.
    + unfold dismiss. destruct (remove_frame i s) as (-> & _ & _).
      pose proof (remove_count i s). lia.
    + destruct (advance_frame dt s) as (-> & _ & _). unfold advance.
      match goal with
      | |- context [foldl fire ?s0 ?ready] =>
          pose proof (fires_count ready s0) as Hc
      end.
      simpl in Hc. lia.
  - intros i Hi. unfold dismiss.
    destruct (remove_toasts i s) as [[_ H]|(l1 & t & l2 & Hs & Hid & _)];
      [exact H|].
    destruct Hi. unfold ids. rewrite Hs, fmap_app, fmap_cons, Hid.
    apply elem_of_app. right. left.
Qed.

(** In the queue the operations build, [dismiss] takes out the toast
    with the given id and no other, keeps the order of the rest, and
    leaves the counter, the clock and the timers alone. *)
Theorem dismiss_only_that (es : list Event) (i : string) :
  let s := run es init in
  toasts (dismiss i s) = filter (fun t => id t <> i) (toasts s) /\
  toastId (dismiss i s) = toastId s /\ timers (dismiss i s) = timers s /\
  now (dismiss i s) = now s.
Proof.
  intros s. split; [|apply remove_frame].
  assert (Hnd : NoDup (ids s)) by (apply (wf_run es init wf_init)).
  unfold dismiss.
  assert (Hkeep : forall l : list Toast,
            (i ∉ (id <$> l)) -> filter (fun t => id t <> i) l = l).
  { induction l as [|t l IHl]; intros Hn; [reflexivity|].
    rewrite fmap_cons in Hn. apply not_elem_of_cons in Hn as [Hne Hn].
    rewrite filter_cons_True by congruence. f_equal. apply IHl, Hn. }
  destruct (remove_toasts i s) as [[Hn ->]|(l1 & t & l2 & Hs & Hid & Hn1 & -> & _)].
  - symmetry. apply Hkeep, Hn.
  - unfold ids in Hnd. rewrite Hs, fmap_app, fmap_cons in Hnd.
    apply NoDup_app in Hnd as (_ & _ & Hnd2).
    apply NoDup_cons in Hnd2 as [Hn2 _]. rewrite Hid in Hn2.
    rewrite Hs, filter_app, filter_cons_False by (intros H; apply H, Hid).
    rewrite !Hkeep by assumption. reflexivity.
Qed.

End ToastQueueOrder.

(** ** Region colours, reading time, truncation *)

Section TextUtilities.

Import Text.

(** Every one of the 16 regions of the submission form has a colour of
    its own in [getRegionColor], none of them the grey fallback; the
    table has no other key; any other name gets the fallback, unless it
    names a member every object inherits (such as ["constructor"]), for
    which the result is that member and no class string. *)
Theorem region_colours :
  colors.*1 ≡ₚ Submit.GHANA_REGIONS /\
  NoDup (colors.*2) /\
  (forall r, r ∈ Submit.GHANA_REGIONS ->
     exists c, getRegionColor r = classes c /\ c <> fallback /\ (r, c) ∈ colors) /\
  (forall r, r ∉ Submit.GHANA_REGIONS -> r ∉ Object_prototype ->
     getRegionColor r = classes fallback) /\
  (forall r, r ∈ Object_prototype -> getRegionColor r = inherited r).
Proof.
  split; [|split; [|split; [|split]]].
  - apply (bool_decide_unpack _). vm_compute. reflexivity.
  - apply (bool_decide_unpack _). vm_compute. reflexivity.
  - unfold Submit.GHANA_REGIONS. intros r Hr.
    repeat (apply elem_of_cons in Hr as [->|Hr];
            [eexists; split; [vm_compute; reflexivity|];
             split; [discriminate|apply (bool_decide_unpack _); vm_compute; reflexivity]|]).
    inversion Hr.
  - intros r Hr Hp. unfold getRegionColor.
    assert (Hown : own r colors = None).
    { unfold Submit.GHANA_REGIONS in Hr. unfold colors. simpl.
      repeat (destruct (decide (_ = r)) as [<-|_];
              [exfalso; apply Hr; apply (bool_decide_unpack _);
               vm_compute; reflexivity|]).
      reflexivity. }
    rewrite Hown. destruct (decide (r ∈ Object_prototype)); [contradiction|reflexivity].
  - unfold Object_prototype. intros r Hr.
    repeat (apply elem_of_cons in Hr as [->|Hr]; [vm_compute; reflexivity|]).
    inversion Hr.
Qed.

Lemma split_go_nonempty (in_sep : bool) (cur s : string) :
  (1 <= length (split_go in_sep cur s))%nat.
Proof.
  revert in_sep cur; induction s as [|c s IH]; intros in_sep cur; simpl; [lia|].
  destruct (Submit.is_white_space c); [destruct in_sep|]; simpl;
    try apply IH; lia.
Qed.

(** The reading time is never less than one minute, not even for an
    empty or blank text: [split] always yields at least one piece.  It
    is the least number of minutes in which the pieces fit at 200 a
    minute. *)
Theorem reading_time_at_least_one (text : string) :
  let words := Z.of_nat (length (split_ws (trim text))) in
  1 <= words /\
  1 <= calculateReadingTime text /\
  words <= 200 * calculateReadingTime text /\
  200 * (calculateReadingTime text - 1) < words /\
  calculateReadingTime "" = 1 /\ calculateReadingTime "   " = 1.
Proof.
  intros words.
  assert (Hw : 1 <= words).
  { subst words. pose proof (split_go_nonempty false "" (trim text)).
    unfold split_ws. lia. }
  unfold calculateReadingTime, ceil_div, wordsPerMinute. fold words.
  pose proof (Z.div_mod (words + 200 - 1) 200 ltac:(lia)) as Hdm.
  pose proof (Z.mod_pos_bound (words + 200 - 1) 200 ltac:(lia)) as Hm.
  repeat split; try lia; reflexivity.
Qed.

(** For a non-negative [maxLength] the result of [truncateText] has at
    most [maxLength + 3] code units, and it is longer than the text it
    was given exactly when the text exceeds [maxLength] by one or two
    code units. *)
Theorem truncateText_length (text : string) (maxLength : Z) :
  0 <= maxLength ->
  let r := Utils.truncateText text (Some maxLength) in
  JS.len r <= maxLength + 3 /\
  JS.len r <= JS.len text + 2 /\
  (JS.len text < JS.len r <-> maxLength < JS.len text < maxLength + 3).
Proof.
  intros Hm r. subst r. unfold Utils.truncateText. simpl default.
  destruct (Z.leb_spec (JS.len text) maxLength) as [H|H].
  - repeat split; lia.
  - rewrite slice_0_nonneg by lia.
    assert (Hlen : JS.len (JS.prefix (Z.to_nat maxLength) text +:+ "...")
                   = maxLength + 3).
    { unfold JS.len in *. rewrite length_app_string, length_prefix by lia.
      simpl String.length. lia. }
    rewrite Hlen. repeat split; lia.
Qed.

Lemma truncateText_length_witness :
  JS.len (Utils.truncateText "abcd" (Some 3)) <= 3 + 3 /\
  JS.len "abcd" < JS.len (Utils.truncateText "abcd" (Some 3)).
Proof.
  assert (H03 : 0 <= 3) by lia.
  pose proof (truncateText_length "abcd" 3 H03) as (H1 & _ & H2).
  split; [exact H1|]. apply H2. vm_compute. split; reflexivity.
Defined.

End TextUtilities.

(** ** [throttle] and [debounce] *)

Section Throttling.

Import Throttle.

Context {A : Type}.

Implicit Types (s : State A) (es : list (Event A)).








End Throttling.

Section Debouncing.

Import Debounce.

Context {A : Type}.

Implicit Types (s : State A) (es : list (Event A)).





End Debouncing.


(** ** The regions shown on the home page *)

Section TopRegions.

Import Home.

Lemma insert_perm (x : Entry) (l : list Entry) : insert x l ≡ₚ x :: l.
Proof.
  induction l as [|y l IH]; simpl; [reflexivity|].
  destruct (x.2 <? y.2); [|reflexivity].
  rewrite IH. apply Permutation_swap.
Qed.

Lemma sort_perm (l : list Entry) : sort l ≡ₚ l.
Proof.
  induction l as [|x l IH]; simpl; [reflexivity|].
  rewrite insert_perm, IH. reflexivity.
Qed.

Lemma insert_sorted (x : Entry) (l : list Entry) :
  StronglySorted more l -> StronglySorted more (insert x l).
Proof.
  induction 1 as [|y l Hs IH Hy]; simpl; [repeat constructor|].
  destruct (Z.ltb_spec x.2 y.2) as [Hlt|Hge].
  - constructor; [exact IH|]. rewrite insert_perm. constructor; [|exact Hy].
    unfold more. lia.
  - constructor; [constructor; assumption|].
    constructor; [unfold more; lia|].
    eapply Forall_impl; [exact Hy|]. unfold more. intros z Hz. lia.
Qed.

Lemma sort_sorted (l : list Entry) : StronglySorted more (sort l).
Proof.
  induction l as [|x l IH]; simpl; [constructor|]. apply insert_sorted, IH.
Qed.

(** Entries with the same count keep their order. *)
Lemma insert_stable (k : Z) (x : Entry) (l : list Entry) :
  StronglySorted more l ->
  filter (fun e => e.2 = k) (insert x l) = filter (fun e => e.2 = k) (x :: l).
Proof.
  induction 1 as [|y l Hs IH Hy]; simpl; [reflexivity|].
  destruct (Z.ltb_spec x.2 y.2) as [Hlt|Hge]; [|reflexivity].
  rewrite !filter_cons in *. rewrite IH.
  destruct (decide (y.2 = k)) as [Hyk|Hyk], (decide (x.2 = k)) as [Hxk|Hxk];
    try reflexivity.
  lia.
Qed.

Lemma sort_stable (k : Z) (l : list Entry) :
  filter (fun e => e.2 = k) (sort l) = filter (fun e => e.2 = k) l.
Proof.
  induction l as [|x l IH]; simpl; [reflexivity|].
  rewrite insert_stable by apply sort_sorted.
  rewrite !filter_cons, IH. reflexivity.
Qed.

(** The home page lists at most eight regions, and all of them when
    there are no more than eight.  They are entries of the statistics,
    listed by falling count; every region left out has a count no
    larger than any region listed; regions with equal counts stay in the
    order of the statistics.  Without [submissions_by_region] the list
    is empty. *)
Theorem top_regions (entries : list Entry) :
  let shown := topRegions (Some entries) in
  length shown = Nat.min 8 (length entries) /\
  StronglySorted more shown /\
  (exists hidden,
     shown ++ hidden ≡ₚ entries /\
     forall x y, x ∈ shown -> y ∈ hidden -> y.2 <= x.2) /\
  (forall k, filter (fun e => e.2 = k) (sort entries)
             = filter (fun e => e.2 = k) entries) /\
  topRegions None = [].
Proof.
  intros shown. subst shown. unfold topRegions. simpl default.
  pose proof (sort_sorted entries) as Hs.
  rewrite <- (take_drop 8 (sort entries)) in Hs.
  split; [|split; [|split; [|split]]].
  - rewrite length_take. rewrite (Permutation_length (sort_perm entries)).
    reflexivity.
  - apply (StronglySorted_app_1_l _ _ _ Hs).
  - exists (drop 8 (sort entries)). split.
    + rewrite take_drop. apply sort_perm.
    + intros x y Hx Hy.
      apply (StronglySorted_app_1_elem_of _ _ _ _ _ Hs Hx Hy).
  - intros k. apply sort_stable.
  - reflexivity.
Qed.

End TopRegions.

(** ** [validateEmail] *)

Section EmailPattern.

Import Regex.

Lemma nullable_spec (r : re) : nullable r = true <-> lang r [].
Proof.
  split.
  - induction r as [| |p|r1 IH1 r2 IH2|r1 IH1 r2 IH2|r IH]; simpl; intros H;
      try discriminate H.
    + constructor.
    + apply andb_true_iff in H as [H1 H2].
      change (@nil ascii) with (@nil ascii ++ []). constructor; auto.
    + apply orb_true_iff in H as [H|H]; [apply lang_alt_l|apply lang_alt_r]; auto.
    + constructor.
  - intros H. remember [] as s eqn:E. induction H; simpl; try reflexivity;
      try discriminate E.
    + apply app_eq_nil in E as [-> ->]. rewrite IHlang1, IHlang2; reflexivity.
    + rewrite IHlang by exact E. reflexivity.
    + rewrite IHlang by exact E. apply orb_true_r.
Qed.

Lemma deriv_sound (c : ascii) (r : re) (s : list ascii) :
  lang (deriv c r) s -> lang r (c :: s).
Proof.
  revert s; induction r as [| |p|r1 IH1 r2 IH2|r1 IH1 r2 IH2|r IH];
    simpl; intros s H.
  - inversion H.
  - inversion H.
  - destruct (p c) eqn:Hp; inversion H; subst. constructor. exact Hp.
  - destruct (nullable r1) eqn:Hn.
    + inversion H as [| | | ? ? ? H' | ? ? ? H' | |]; subst.
      * inversion H' as [| |? ? s1 s2 H1 H2| | | |]; subst.
        change (c :: s1 ++ s2) with ((c :: s1) ++ s2). constructor; auto.
      * change (c :: s) with ([] ++ c :: s). constructor; [|auto].
        apply nullable_spec, Hn.
    + inversion H as [| |? ? s1 s2 H1 H2| | | |]; subst.
      change (c :: s1 ++ s2) with ((c :: s1) ++ s2). constructor; auto.
  - inversion H; subst; [apply lang_alt_l|apply lang_alt_r]; auto.
  - inversion H as [| |? ? s1 s2 H1 H2| | | |]; subst.
    change (c :: s1 ++ s2) with ((c :: s1) ++ s2). constructor; auto.
Qed.

Lemma deriv_complete (c : ascii) (r : re) (s : list ascii) :
  lang r (c :: s) -> lang (deriv c r) s.
Proof.
  intros H. remember (c :: s) as cs eqn:E. revert c s E.
  induction H as [|p c' Hp|r1 r2 s1 s2 H1 IH1 H2 IH2|r1 r2 s' H' IH'
                 |r1 r2 s' H' IH'|r|r s1 s2 H1 IH1 H2 IH2];
    intros c s E; simpl.
  - discriminate E.
  - injection E as -> <-. rewrite Hp. constructor.
  - destruct s1 as [|a s1].
    + simpl in E. subst s2.
      rewrite (proj2 (nullable_spec r1) H1). apply lang_alt_r. auto.
    + injection E as -> <-.
      destruct (nullable r1); [apply lang_alt_l|]; constructor; auto.
  - apply lang_alt_l. auto.
  - apply lang_alt_r. auto.
  - discriminate E.
  - destruct s1 as [|a s1].
    + simpl in E. apply (IH2 c s E).
    + injection E as -> <-. constructor; auto.
Qed.

Lemma matches_spec (r : re) (s : list ascii) :
  matches r s = true <-> lang r s.
Proof.
  unfold matches. revert r; induction s as [|c s IH]; intros r; simpl.
  - apply nullable_spec.
  - rewrite IH. split; [apply deriv_sound|apply deriv_complete].
Qed.

Lemma lang_star_class (p : ascii -> bool) (s : list ascii) :
  lang (Star (Chr p)) s <-> Forall (fun c => p c = true) s.
Proof.
  split.
  - intros H. remember (Star (Chr p)) as r eqn:E.
    induction H as [| | | | | |r' s1 s2 H1 _ H2 IH2]; try discriminate E.
    + constructor.
    + injection E as ->. inversion H1; subst. constructor; auto.
  - induction 1 as [|c s Hc _ IH]; [constructor|].
    change (c :: s) with ([c] ++ s). constructor; [constructor; exact Hc|exact IH].
Qed.

Lemma lang_plus_class (p : ascii -> bool) (s : list ascii) :
  lang (Plus (Chr p)) s <-> s <> [] /\ Forall (fun c => p c = true) s.
Proof.
  unfold Plus. split.
  - intros H. inversion H as [| |? ? s1 s2 H1 H2| | | |]; subst.
    inversion H1; subst. split; [discriminate|].
    constructor; [assumption|]. apply lang_star_class, H2.
  - intros [Hne Hall]. destruct s as [|c s]; [now destruct Hne|].
    apply Forall_cons in Hall as [Hc Hs].
    change (c :: s) with ([c] ++ s). constructor; [constructor; exact Hc|].
    apply lang_star_class, Hs.
Qed.

Lemma lang_char (d : ascii) (s : list ascii) :
  lang (Chr (is_char d)) s <-> s = [d].
Proof.
  split.
  - intros H. inversion H as [|p c Hc| | | | |]; subst.
    unfold is_char in Hc. apply Ascii.eqb_eq in Hc. now subst.
  - intros ->. constructor. unfold is_char. apply Ascii.eqb_refl.
Qed.

Lemma email_lang (s : list ascii) :
  lang email_re s <->
  exists a b c, s = a ++ "@"%char :: b ++ "."%char :: c
                /\ plain a /\ plain b /\ plain c.
Proof.
  unfold email_re, plain. split.
  - intros H.
    inversion H as [| |? ? a s1 Ha La| | | |]; subst.
    inversion La as [| |? ? at_ s2 Hat Lb| | | |]; subst.
    inversion Lb as [| |? ? b s3 Hb Lc| | | |]; subst.
    inversion Lc as [| |? ? dot c Hdot Hc| | | |]; subst.
    apply lang_char in Hat, Hdot. subst at_ dot.
    apply lang_plus_class in Ha, Hb, Hc.
    exists a, b, c. split; [reflexivity|auto].
  - intros (a & b & c & -> & Ha & Hb & Hc).
    constructor; [apply lang_plus_class, Ha|].
    change ("@"%char :: b ++ "."%char :: c)
      with (["@"%char] ++ b ++ ["."%char] ++ c).
    constructor; [apply lang_char; reflexivity|].
    constructor; [apply lang_plus_class, Hb|].
    constructor; [apply lang_char; reflexivity|].
    apply lang_plus_class, Hc.
Qed.

(** [validateEmail] accepts exactly the strings [a@b.c] in which [a],
    [b] and [c] are non-empty and hold neither white space nor [@]
    ([b] and [c] may hold further dots).  Hence an accepted address has
    no white space and exactly one [@], which is not its first code
    unit. *)
Theorem validateEmail_spec (email : string) :
  let s := list_ascii_of_string email in
  (validateEmail email = true <->
   exists a b c, s = a ++ "@"%char :: b ++ "."%char :: c
                 /\ plain a /\ plain b /\ plain c) /\
  (validateEmail email = true ->
   Forall (fun ch => Submit.is_white_space ch = false) s /\
   length (filter (fun ch => ch = "@"%char) s) = 1%nat /\
   head s <> Some "@"%char /\ "."%char ∈ s).
Proof.
  intros s.
  assert (Hiff : validateEmail email = true <->
    exists a b c, s = a ++ "@"%char :: b ++ "."%char :: c
                  /\ plain a /\ plain b /\ plain c).
  { unfold validateEmail. fold s. rewrite matches_spec. apply email_lang. }
  split; [exact Hiff|].
  intros Hv. apply Hiff in Hv as (a & b & c & -> & [Hna Ha] & [Hnb Hb] & [Hnc Hc]).
  assert (Hsp : forall l, Forall (fun ch => not_space_at ch = true) l ->
            Forall (fun ch => Submit.is_white_space ch = false) l /\
            filter (fun ch => ch = "@"%char) l = []).
  { induction 1 as [|ch l Hch _ [IH1 IH2]]; [split; constructor|].
    unfold not_space_at in Hch. apply andb_true_iff in Hch as [Hw Hat].
    apply negb_true_iff in Hw, Hat. apply Ascii.eqb_neq in Hat.
    split; [constructor; assumption|].
    rewrite filter_cons_False by exact Hat. exact IH2. }
  destruct (Hsp a Ha) as [Wa Fa], (Hsp b Hb) as [Wb Fb], (Hsp c Hc) as [Wc Fc].
  split; [|split; [|split]].
  - apply Forall_app. split; [exact Wa|]. constructor; [reflexivity|].
    apply Forall_app. split; [exact Wb|]. constructor; [reflexivity|exact Wc].
  - rewrite filter_app, Fa, filter_cons_True by reflexivity.
    rewrite filter_app, Fb, filter_cons_False by discriminate.
    rewrite Fc. reflexivity.
  - destruct a as [|ch a]; [now destruct Hna|]. simpl.
    apply Forall_cons in Ha as [Hch _]. intros [= ->]. discriminate Hch.
  - apply elem_of_app. right. right. apply elem_of_app. right. left.
Qed.

End EmailPattern.
